(** * pyscc: lowering of typed Python syntax trees to Pluto terms

    A shallow embedding of [pyscc/compiler.py].  The compiler turns every
    syntax node into a Pluto term of the shape [\s -> ...], where [s] (the
    "state monad") is the environment: a function from variable names, given
    as byte strings, to values.

    The file is organised as follows:
    - the Pluto term algebra the compiler emits ([plt]) and the built-in
      functions it refers to;
    - the dispatch tables, the environment encoder, the tuple emulation and
      the bootstrap environment;
    - the typed Python syntax tree and the visitor [UPLCCompiler];
    - a call-by-value evaluator for the emitted terms;
    - the properties of the compiler. *)

From Stdlib Require Import String Ascii List ZArith Bool Lia.
From Stdlib Require Import DecimalString.
From Stdlib Require DecimalNat DecimalPos DecimalZ FinFun.
From Stdlib Require Import NArith.
Import ListNotations.
Local Open Scope string_scope.
Local Open Scope list_scope.
Set Warnings "-register-all".

(** ** The target: built-in functions and Pluto terms *)

(** Modelled from the spec: the enumeration [uplc_ast.BuiltInFun] is not part
    of the compiler module; only the members the compiler names are listed. *)
Inductive BuiltInFun : Type :=
| AddInteger
| SubtractInteger
| MultiplyInteger
| DivideInteger
| RemainderInteger
| AppendByteString
| EqualsInteger
| EqualsByteString
| LessThanInteger
| Trace.

(** Python [bytes] and [str]: both are kept as sequences of bytes, a [str]
    being represented by its UTF-8 encoding, so that [encode] is the
    identity. *)
Definition bytes := string.

Definition encode (s : string) : bytes := s.

Module plt.

(** Modelled from the spec: the term algebra [pluto_ast] (variable, lambda
    abstraction over one or more names, application to one or more
    arguments, let-binding, conditional, literal constants, built-in
    reference, forced and deferred wrappers, explicit failure term).  The
    constructors carry the names the compiler calls them by. *)
Inductive AST : Type :=
| Var (name : string)
| Lambda (vars : list string) (term : AST)
| Apply (f : AST) (xs : list AST)
| Ite (i t e : AST)
| Let (bindings : list (string * AST)) (term : AST)
| BuiltIn (builtin : BuiltInFun)
| Integer (x : Z)
| ByteString (x : bytes)
| Text (x : string)
| Bool (x : bool)
| Unit
| Force (x : AST)
| Delay (x : AST)
| Error.

End plt.

(** ** Inferred types and operators *)

(** Modelled from the spec: the type tags assigned by [type_inference]
    (Integer, ByteString, Text, Bool, Unit, Tuple, List, Function). *)
Inductive type : Type :=
| IntegerType
| ByteStringType
| StringType
| BoolType
| UnitType
| TupleType (typs : list type)
| ListType (typ : type)
| FunctionType (argtyps : list type) (rettyp : type).

Module ast.

(** The binary operators of Python's [ast] module. *)
Inductive operator : Type :=
| Add | Sub | Mult | MatMult | Div | Mod | Pow
| LShift | RShift | BitOr | BitXor | BitAnd | FloorDiv.

(** The comparison operators of Python's [ast] module. *)
Inductive cmpop : Type :=
| Eq | NotEq | Lt | LtE | Gt | GtE | Is | IsNot | In | NotIn.

End ast.

(** ** Dispatch tables

    A Python [dict] is read through [get] only, so each table is the partial
    function [get] computes: [None] where the key is absent. *)

Definition BinOpMap (op : ast.operator) : option (type -> option BuiltInFun) :=
  match op with
  | ast.Add => Some (fun typ =>
      match typ with
      | IntegerType => Some AddInteger
      | ByteStringType => Some AppendByteString
      | _ => None
      end)
  | ast.Sub => Some (fun typ =>
      match typ with IntegerType => Some SubtractInteger | _ => None end)
  | ast.Mult => Some (fun typ =>
      match typ with IntegerType => Some MultiplyInteger | _ => None end)
  | ast.Div => Some (fun typ =>
      match typ with IntegerType => Some DivideInteger | _ => None end)
  | ast.Mod => Some (fun typ =>
      match typ with IntegerType => Some RemainderInteger | _ => None end)
  | _ => None
  end.

Definition CmpMap (op : ast.cmpop) : option (type -> option BuiltInFun) :=
  match op with
  | ast.Eq => Some (fun typ =>
      match typ with
      | IntegerType => Some EqualsInteger
      | ByteStringType => Some EqualsByteString
      | BoolType => Some EqualsInteger
      | _ => None
      end)
  | ast.Lt => Some (fun typ =>
      match typ with IntegerType => Some LessThanInteger | _ => None end)
  | _ => None
  end.

(** The value of a Python constant, by runtime kind.  [COther] stands for
    the kinds [ConstantMap] has no entry for (float, complex, Ellipsis): it
    keeps the name of the kind and the text [str] gives for the value. *)
Inductive constant : Type :=
| CStr (s : string)
| CBytes (b : bytes)
| CInt (z : Z)
| CBool (b : bool)
| CNone
| COther (kind : string) (text : string).

(** The name of the runtime kind, as it appears in error messages. *)
Definition type_name (value : constant) : string :=
  match value with
  | CStr _ => "str"
  | CBytes _ => "bytes"
  | CInt _ => "int"
  | CBool _ => "bool"
  | CNone => "NoneType"
  | COther kind _ => kind
  end.

(** ** Environment encoder and tuple emulation *)

Definition STATEMONAD : string := "s".

(** [extend_statemonad]: the loop wraps the chain built so far in one more
    conditional for each (name, value) pair of [zip(names, values)], so the
    test of a later pair encloses the tests of the earlier ones. *)
Definition extend_statemonad (names : list string) (values : list plt.AST)
    (old_statemonad : plt.AST) : plt.AST :=
  let additional_compares :=
    fold_left
      (fun additional_compares nv =>
         plt.Ite
           (plt.Apply (plt.BuiltIn EqualsByteString)
              [plt.Var "x"; plt.ByteString (encode (fst nv))])
           (snd nv)
           additional_compares)
      (combine names values)
      (plt.Apply old_statemonad [plt.Var "x"]) in
  plt.Lambda ["x"] additional_compares.

Definition emulate_tuple (els : list plt.AST) : plt.AST :=
  plt.Lambda ["f"] (plt.Apply (plt.Var "f") els).

(** Decimal rendering of the integers an f-string interpolates. *)
Definition str_of_nat (n : nat) : string :=
  NilZero.string_of_uint (Nat.to_uint n).

Definition str_of_Z (n : Z) : string :=
  NilZero.string_of_int (Z.to_int n).

Definition emulate_nth (t : plt.AST) (n : Z) (size : nat) : plt.AST :=
  plt.Apply t
    [plt.Lambda (map (fun i => String.append "v" (str_of_nat i)) (seq 0 size))
       (plt.Var (String.append "v" (str_of_Z n)))].

Definition single_quote : ascii := "'"%char.

Definition double_quote : ascii := ascii_of_nat 34.

Definition backslash : ascii := ascii_of_nat 92.

Definition hex_digit (n : nat) : ascii :=
  match String.get n "0123456789abcdef" with
  | Some c => c
  | None => "0"%char
  end.

Fixpoint contains (c : ascii) (s : string) : bool :=
  match s with
  | EmptyString => false
  | String a s' => Ascii.eqb a c || contains c s'
  end.

Definition escape_byte (quote c : ascii) : string :=
  let n := nat_of_ascii c in
  if Ascii.eqb c quote || Ascii.eqb c backslash
  then String backslash (String c EmptyString)
  else if Nat.eqb n 9 then String backslash "t"
  else if Nat.eqb n 10 then String backslash "n"
  else if Nat.eqb n 13 then String backslash "r"
  else if Nat.ltb n 32 || Nat.leb 127 n
  then String backslash
         (String "x"
            (String (hex_digit (n / 16))
               (String (hex_digit (n mod 16)) EmptyString)))
  else String c EmptyString.

Fixpoint escape_bytes (quote : ascii) (b : bytes) : string :=
  match b with
  | EmptyString => EmptyString
  | String c b' => String.append (escape_byte quote c) (escape_bytes quote b')
  end.

(** The literal Python prints for a [bytes]: [b], a quote, the bytes with
    the quote, the backslash, tab, line feed and carriage return escaped and
    the bytes outside the printable ASCII range written [\xNN], and the
    quote again; the quote is the double quote exactly when the bytes hold a
    single quote and no double quote. *)
Definition repr_bytes (b : bytes) : string :=
  let quote :=
    if contains single_quote b && negb (contains double_quote b)
    then double_quote else single_quote in
  String "b"
    (String quote
       (String.append (escape_bytes quote b) (String quote EmptyString))).

(** The text an f-string interpolates for a constant, [str(value)]. *)
Definition py_str (value : constant) : string :=
  match value with
  | CStr s => s
  | CBytes b => repr_bytes b
  | CInt z => str_of_Z z
  | CBool true => "True"
  | CBool false => "False"
  | CNone => "None"
  | COther _ text => text
  end.

(** [emulate_nth] for whatever constant it is handed as [n]: the function
    does not check that [n] is an integer, and the f-string interpolates any
    value.  At an integer it is [emulate_nth]. *)
Definition emulate_nth_at (t : plt.AST) (n : constant) (size : nat)
    : plt.AST :=
  plt.Apply t
    [plt.Lambda (map (fun i => String.append "v" (str_of_nat i)) (seq 0 size))
       (plt.Var (String.append "v" (py_str n)))].

(** ** Built-ins and the bootstrap environment *)

Module PythonBuiltIn.

Inductive t : Type := print | range.

(** The members in definition order, as iteration over the [Enum] yields
    them. *)
Definition members : list t := [print; range].

Definition name (b : t) : string :=
  match b with
  | print => "print"
  | range => "range"
  end.

Definition value (b : t) : plt.AST :=
  match b with
  | print =>
      plt.Lambda [STATEMONAD]
        (plt.Lambda ["x"]
           (plt.Force
              (plt.Apply (plt.BuiltIn Trace)
                 [plt.Apply (plt.Var "x") [plt.Var STATEMONAD];
                  plt.Var STATEMONAD])))
  | range =>
      plt.Lambda [STATEMONAD]
        (plt.Lambda ["limit"]
           (emulate_tuple
              [plt.Integer 0;
               plt.Lambda ["state"]
                 (emulate_tuple
                    [plt.Apply (plt.BuiltIn LessThanInteger)
                       [plt.Var "state"; plt.Var "limit"];
                     plt.Var "state";
                     plt.Apply (plt.BuiltIn AddInteger)
                       [plt.Var "state"; plt.Integer 1]])]))
  end.

End PythonBuiltIn.

Definition INITIAL_STATE : plt.AST :=
  extend_statemonad
    (map PythonBuiltIn.name PythonBuiltIn.members)
    (map PythonBuiltIn.value PythonBuiltIn.members)
    (plt.Lambda ["x"] plt.Error).

(** ** The typed Python syntax tree *)

Inductive expr_context : Type := Load | Store | Del.

(** The slice of a subscript: [Index] wraps one expression; the other slice
    nodes ([Slice], [ExtSlice]) carry nothing the compiler reads. *)
Inductive slice_of (E : Type) : Type :=
| Index (value : E)
| OtherSlice (kind : string).

Arguments Index {E} value.
Arguments OtherSlice {E} kind.

(** Expression nodes.  Each carries the type inferred for it ([node.typ]).
    A call keeps its positional arguments only: the compiler does not read
    [node.keywords].  [OtherExpr] stands for every expression class the
    compiler has no [visit_] method for; [kind] is the class name. *)
Inductive expr : Type :=
| BinOp (typ : type) (left : expr) (op : ast.operator) (right : expr)
| Compare (typ : type) (left : expr) (ops : list ast.cmpop)
    (comparators : list expr)
| Call (typ : type) (func : expr) (args : list expr)
| Constant (typ : type) (value : constant)
| Name (typ : type) (id : string) (ctx : expr_context)
| Subscript (typ : type) (value : expr) (slice : slice_of expr)
| OtherExpr (typ : type) (kind : string).

(** Statement nodes.  A function's parameters are kept by name
    ([a.arg for a in node.args.args]); [OtherStmt] stands for every statement
    class without a [visit_] method. *)
Inductive stmt : Type :=
| FunctionDef (name : string) (args : list string) (body : list stmt)
| Assign (targets : list expr) (value : expr)
| Expr (value : expr)
| Return (value : option expr)
| Pass
| While (test : expr) (body orelse : list stmt)
| For (target iter : expr) (body orelse : list stmt)
| OtherStmt (kind : string).

Inductive module : Type :=
| Module_ (body : list stmt).

Definition typ_of (node : expr) : type :=
  match node with
  | BinOp typ _ _ _ => typ
  | Compare typ _ _ _ => typ
  | Call typ _ _ => typ
  | Constant typ _ => typ
  | Name typ _ _ => typ
  | Subscript typ _ _ => typ
  | OtherExpr typ _ => typ
  end.

(** ** Compile-time failures *)

(** The node an operator message interpolates. *)
Inductive op_node : Type :=
| BinOperator (op : ast.operator)
| CmpOperator (op : ast.cmpop).

(** The text of a [NotImplementedError], by the f-string that builds it and
    the values it interpolates. *)
Inductive message : Type :=
| OperationNotImplemented (op : op_node)
| OperationNotImplementedForType (op : op_node) (typ : type)
| ConstantsNotSupported (kind : string)
| ContextNotSupported (ctx : expr_context)
| ListIteratorsNotImplemented
| RawForNotSupported
| ReturnNotLastStatement
| CouldNotImplementSubscript
| CanNotCompile (kind : string).

(** What a visit raises. *)
Inductive exception : Type :=
| NotImplementedError (msg : message)
| AssertionError (msg : string)
| IndexError (msg : string)
| TypeError.

Inductive result (A : Type) : Type :=
| OK (a : A)
| Raise (e : exception).

Arguments OK {A} a.
Arguments Raise {A} e.

Definition bind {A B : Type} (r : result A) (k : A -> result B) : result B :=
  match r with
  | OK a => k a
  | Raise e => Raise e
  end.

Notation "x <- r ;; k" := (bind r (fun x => k))
  (at level 61, r at next level, right associativity).

(** [ConstantMap.get(type(value))] followed by the call [plt_type(value)]:
    [None] where the kind has no entry.  The entry for [type(None)] is
    [plt.Unit], a constructor without parameters ([visit_NoneType] calls it
    with none), so the call [plt.Unit(None)] raises [TypeError]. *)
Definition ConstantMap (value : constant) : option (result plt.AST) :=
  match value with
  | CStr s => Some (OK (plt.Text s))
  | CBytes b => Some (OK (plt.ByteString b))
  | CInt z => Some (OK (plt.Integer z))
  | CBool b => Some (OK (plt.Bool b))
  | CNone => Some (Raise TypeError)
  | COther _ _ => None
  end.

(** ** The visitor [UPLCCompiler] *)

Definition visit_NoneType : plt.AST :=
  plt.Lambda [STATEMONAD] plt.Unit.

(** The loop term of [visit_While], from the compiled test and body. *)
Definition while_term (compiled_c compiled_s : plt.AST) : plt.AST :=
  plt.Lambda [STATEMONAD]
    (plt.Let
       [("g",
         plt.Lambda ["s"; "f"]
           (plt.Ite
              (plt.Apply compiled_c [plt.Var "s"])
              (plt.Apply (plt.Var "f")
                 [plt.Apply compiled_s [plt.Var "s"]; plt.Var "f"])
              (plt.Var "s")))]
       (plt.Apply (plt.Var "g") [plt.Var STATEMONAD; plt.Var "g"])).

(** [visit] on expression nodes: [visit_BinOp], [visit_Compare],
    [visit_Call], [visit_Constant], [visit_Name], [visit_Subscript] and
    [generic_visit].  Sub-nodes are visited in the order the Python
    expressions evaluate them, so the first failure is the one raised. *)
Fixpoint visit_expr (node : expr) : result plt.AST :=
  match node with
  | BinOp typ left_ op right_ =>
      match BinOpMap op with
      | None =>
          Raise (NotImplementedError
                   (OperationNotImplemented (BinOperator op)))
      | Some opmap =>
          match opmap typ with
          | None =>
              Raise (NotImplementedError
                       (OperationNotImplementedForType (BinOperator op) typ))
          | Some op' =>
              l <- visit_expr left_ ;;
              r <- visit_expr right_ ;;
              OK (plt.Lambda [STATEMONAD]
                    (plt.Apply (plt.BuiltIn op')
                       [plt.Apply l [plt.Var STATEMONAD];
                        plt.Apply r [plt.Var STATEMONAD]]))
          end
      end
  | Compare _ left_ ops comparators =>
      match ops with
      | [op0] =>
          match comparators with
          | [comparator0] =>
              match CmpMap op0 with
              | None =>
                  Raise (NotImplementedError
                           (OperationNotImplemented (CmpOperator op0)))
              | Some opmap =>
                  match opmap (typ_of left_) with
                  | None =>
                      Raise (NotImplementedError
                               (OperationNotImplementedForType
                                  (CmpOperator op0) (typ_of left_)))
                  | Some op' =>
                      l <- visit_expr left_ ;;
                      r <- visit_expr comparator0 ;;
                      OK (plt.Lambda [STATEMONAD]
                            (plt.Apply (plt.BuiltIn op')
                               [plt.Apply l [plt.Var STATEMONAD];
                                plt.Apply r [plt.Var STATEMONAD]]))
                  end
              end
          | _ => Raise (AssertionError "Only single comparisons are supported")
          end
      | _ => Raise (AssertionError "Only single comparisons are supported")
      end
  | Call _ func args =>
      f <- visit_expr func ;;
      xs <- (fix visit_args (l : list expr) : result (list plt.AST) :=
               match l with
               | [] => OK []
               | a :: rest =>
                   x <- visit_expr a ;;
                   xs <- visit_args rest ;;
                   OK (plt.Apply x [plt.Var STATEMONAD] :: xs)
               end) args ;;
      OK (plt.Lambda [STATEMONAD] (plt.Apply f xs))
  | Constant _ value =>
      match ConstantMap value with
      | None =>
          Raise (NotImplementedError (ConstantsNotSupported (type_name value)))
      | Some made =>
          literal <- made ;;
          OK (plt.Lambda [STATEMONAD] literal)
      end
  | Name _ id ctx =>
      match ctx with
      | Load =>
          OK (plt.Lambda [STATEMONAD]
                (plt.Apply (plt.Var STATEMONAD) [plt.ByteString (encode id)]))
      | _ => Raise (NotImplementedError (ContextNotSupported ctx))
      end
  | Subscript _ value slice =>
      match slice with
      | Index index =>
          match typ_of value with
          | TupleType typs =>
              match index with
              | Constant _ n =>
                  t <- visit_expr value ;;
                  OK (emulate_nth_at t n (length typs))
              | _ =>
                  Raise (AssertionError
                    "Only constant index access for tuples is supported")
              end
          | _ => Raise (NotImplementedError CouldNotImplementSubscript)
          end
      | OtherSlice _ =>
          Raise (AssertionError
            "Only single index slices are currently supported")
      end
  | OtherExpr _ kind => Raise (NotImplementedError (CanNotCompile kind))
  end.

(** [self.visit(value)] where [value] may be [None]. *)
Definition visit_optional (value : option expr) : result plt.AST :=
  match value with
  | Some e => visit_expr e
  | None => OK visit_NoneType
  end.

(** The value of the statement a function body ends in, after the implicit
    [return None] has been appended where the body does not end in a
    [Return]. *)
Definition final_value (body : list stmt) : option expr :=
  match last body Pass with
  | Return value => value
  | _ => None
  end.

(** [visit] on statement nodes.  [threaded] is the loop of [visit_sequence]:
    the statements are visited last to first, each compiled statement being
    applied to the term built so far.  [threaded_body] is the same loop over
    a function body without its final [Return]. *)
Fixpoint visit_stmt (node : stmt) : result plt.AST :=
  let threaded :=
    fix threaded (node_seq : list stmt) : result plt.AST :=
      match node_seq with
      | [] => OK (plt.Var STATEMONAD)
      | n :: rest =>
          s <- threaded rest ;;
          compiled_stmt <- visit_stmt n ;;
          OK (plt.Apply compiled_stmt [s])
      end in
  let threaded_body :=
    fix threaded_body (body : list stmt) : result plt.AST :=
      match body with
      | [] => OK (plt.Var STATEMONAD)
      | [Return _] => OK (plt.Var STATEMONAD)
      | n :: rest =>
          s <- threaded_body rest ;;
          compiled_stmt <- visit_stmt n ;;
          OK (plt.Apply compiled_stmt [s])
      end in
  match node with
  | FunctionDef _ args body =>
      match body with
      | [] => Raise (IndexError "list index out of range")
      | _ =>
          s <- threaded_body body ;;
          let compiled_body := plt.Lambda [STATEMONAD] s in
          compiled_return <- visit_optional (final_value body) ;;
          let params :=
            map (fun i => String.append "p" (str_of_nat i))
              (seq 0 (length args)) in
          let args_state :=
            extend_statemonad args (map plt.Var params)
              (plt.Var STATEMONAD) in
          OK (plt.Lambda [STATEMONAD]
                (plt.Lambda params
                   (plt.Apply compiled_return
                      [plt.Apply compiled_body [args_state]])))
      end
  | Assign targets value =>
      match targets with
      | [target] =>
          match target with
          | Name _ id _ =>
              compiled_e <- visit_expr value ;;
              OK (plt.Lambda [STATEMONAD]
                    (extend_statemonad [id]
                       [plt.Apply compiled_e [plt.Var STATEMONAD]]
                       (plt.Var STATEMONAD)))
          | _ =>
              Raise (AssertionError
                "Assignments to other things then names are not supported")
          end
      | _ =>
          Raise (AssertionError
            "Assignments to more than one variable not supported yet")
      end
  | Expr value =>
      compiled_value <- visit_expr value ;;
      OK (plt.Lambda [STATEMONAD]
            (plt.Apply (plt.Lambda ["_"] (plt.Var STATEMONAD))
               [compiled_value]))
  | Return _ => Raise (NotImplementedError ReturnNotLastStatement)
  | Pass => OK (plt.Lambda [STATEMONAD] (plt.Var STATEMONAD))
  | While test body orelse =>
      compiled_c <- visit_expr test ;;
      s <- threaded body ;;
      let compiled_s := plt.Lambda [STATEMONAD] s in
      match orelse with
      | [] => OK (while_term compiled_c compiled_s)
      | _ =>
          (* [visit_sequence([cn] + node.orelse)]: the else-statements are
             visited first, then the loop without its else-branch *)
          after <- threaded orelse ;;
          OK (plt.Lambda [STATEMONAD]
                (plt.Apply (while_term compiled_c compiled_s) [after]))
      end
  | For _ iter _ _ =>
      match typ_of iter with
      | ListType _ => Raise (NotImplementedError ListIteratorsNotImplemented)
      | _ => Raise (NotImplementedError RawForNotSupported)
      end
  | OtherStmt kind => Raise (NotImplementedError (CanNotCompile kind))
  end.

(** [visit_sequence], as the compiler writes it: a left fold over the
    reversed statement list, starting from the variable [s]. *)
Definition visit_sequence (node_seq : list stmt) : result plt.AST :=
  s <- fold_left
         (fun acc n =>
            s <- acc ;;
            compiled_stmt <- visit_stmt n ;;
            OK (plt.Apply compiled_stmt [s]))
         (rev node_seq)
         (OK (plt.Var STATEMONAD)) ;;
  OK (plt.Lambda [STATEMONAD] s).

Definition visit_Module (node : module) : result plt.AST :=
  match node with
  | Module_ body =>
      compiled <- visit_sequence body ;;
      OK (plt.Apply compiled [INITIAL_STATE])
  end.

(** ** Evaluation of Pluto terms

    The engine that reduces the emitted terms is not part of the compiler
    module.  The evaluator of this section is the usual call-by-value reading
    of the term algebra, with closures and a log of trace events. *)

(** Modelled from the spec: the values of the target calculus, which the
    compiler module does not define: literals, closures of lambdas and of
    deferred terms, and partially applied built-ins.  A built-in that takes
    a type argument ([Trace]) is a [VBuiltIn] until it is forced and a
    [VForcedBuiltIn] from then on. *)
Inductive value : Type :=
| VInteger (x : Z)
| VByteString (x : bytes)
| VText (x : string)
| VBool (x : bool)
| VUnit
| VLambda (rho : list (string * value)) (vars : list string) (term : plt.AST)
| VDelay (rho : list (string * value)) (term : plt.AST)
| VBuiltIn (builtin : BuiltInFun) (args : list value)
| VForcedBuiltIn (builtin : BuiltInFun) (args : list value).

Definition environment : Type := list (string * value).

(** How an evaluation ends: with a value, in the explicit failure term (or a
    failing built-in), in a term no rule applies to, or out of fuel. *)
Inductive outcome : Type :=
| Value (v : value)
| Failed
| Stuck
| OutOfFuel.

(** A run: the trace events emitted, oldest first, and the outcome. *)
Definition run : Type := (list value * outcome)%type.

Definition ret (v : value) : run := ([], Value v).

Definition andthen (r : run) (k : value -> run) : run :=
  match r with
  | (events, Value v) =>
      let (events', o) := k v in (events ++ events', o)
  | _ => r
  end.

Notation "x <~ r ;; k" := (andthen r (fun x => k))
  (at level 61, r at next level, right associativity).

Fixpoint lookup (x : string) (rho : environment) : option value :=
  match rho with
  | [] => None
  | (y, v) :: rho' => if String.eqb x y then Some v else lookup x rho'
  end.

(** Modelled from the spec: the built-in functions, which live outside the
    compiler module, applied to all their operands.  They follow Untyped
    Plutus Core: integers are unbounded, division by zero fails, and [Trace]
    emits its first operand, a text, as a trace event and returns its
    second. *)
Definition run_builtin (b : BuiltInFun) (args : list value) : run :=
  match b, args with
  | AddInteger, [VInteger x; VInteger y] => ret (VInteger (x + y))
  | SubtractInteger, [VInteger x; VInteger y] => ret (VInteger (x - y))
  | MultiplyInteger, [VInteger x; VInteger y] => ret (VInteger (x * y))
  | DivideInteger, [VInteger x; VInteger y] =>
      if Z.eqb y 0 then ([], Failed) else ret (VInteger (Z.div x y))
  | RemainderInteger, [VInteger x; VInteger y] =>
      if Z.eqb y 0 then ([], Failed) else ret (VInteger (Z.rem x y))
  | AppendByteString, [VByteString x; VByteString y] =>
      ret (VByteString (String.append x y))
  | EqualsInteger, [VInteger x; VInteger y] => ret (VBool (Z.eqb x y))
  | EqualsByteString, [VByteString x; VByteString y] =>
      ret (VBool (String.eqb x y))
  | LessThanInteger, [VInteger x; VInteger y] => ret (VBool (Z.ltb x y))
  | Trace, [VText message; v] => ([VText message], Value v)
  | _, _ => ([], Stuck)
  end.

Definition arity (b : BuiltInFun) : nat := 2.

Section Step.

(** The evaluator for the sub-terms, one unit of fuel down. *)
Variable ev : environment -> plt.AST -> run.

(** Application.  A built-in that takes a type argument cannot be applied
    before it has been forced: the evaluation stops. *)
Definition apply_value (f a : value) : run :=
  match f with
  | VLambda rho [] _ => ([], Stuck)
  | VLambda rho [x] term => ev ((x, a) :: rho) term
  | VLambda rho (x :: vars) term => ret (VLambda ((x, a) :: rho) vars term)
  | VBuiltIn b args =>
      match b with
      | Trace => ([], Stuck)
      | _ =>
          if Nat.eqb (length (args ++ [a])) (arity b)
          then run_builtin b (args ++ [a])
          else ret (VBuiltIn b (args ++ [a]))
      end
  | VForcedBuiltIn b args =>
      if Nat.eqb (length (args ++ [a])) (arity b)
      then run_builtin b (args ++ [a])
      else ret (VForcedBuiltIn b (args ++ [a]))
  | _ => ([], Stuck)
  end.

(** Forcing runs a deferred term and supplies the type argument of [Trace];
    on any other value, a lambda or a literal among them, the evaluation
    stops. *)
Definition force_value (v : value) : run :=
  match v with
  | VDelay rho term => ev rho term
  | VBuiltIn Trace [] => ret (VForcedBuiltIn Trace [])
  | _ => ([], Stuck)
  end.

(** [f x1 ... xn] is [(...(f x1)...) xn]: each argument is evaluated when the
    function part before it has been. *)
Fixpoint apply_args (rho : environment) (f : run) (xs : list plt.AST) : run :=
  match xs with
  | [] => f
  | x :: xs' =>
      apply_args rho
        (vf <~ f ;; va <~ ev rho x ;; apply_value vf va)
        xs'
  end.

Fixpoint eval_let (rho : environment) (bindings : list (string * plt.AST))
    (term : plt.AST) : run :=
  match bindings with
  | [] => ev rho term
  | (x, b) :: bindings' =>
      v <~ ev rho b ;; eval_let ((x, v) :: rho) bindings' term
  end.

Definition eval_step (rho : environment) (t : plt.AST) : run :=
  match t with
  | plt.Var x =>
      match lookup x rho with
      | Some v => ret v
      | None => ([], Stuck)
      end
  | plt.Lambda [] _ => ([], Stuck)
  | plt.Lambda vars term => ret (VLambda rho vars term)
  | plt.Apply f xs => apply_args rho (ev rho f) xs
  | plt.Ite i t e =>
      c <~ ev rho i ;;
      match c with
      | VBool true => ev rho t
      | VBool false => ev rho e
      | _ => ([], Stuck)
      end
  | plt.Let bindings term => eval_let rho bindings term
  | plt.BuiltIn b => ret (VBuiltIn b [])
  | plt.Integer x => ret (VInteger x)
  | plt.ByteString x => ret (VByteString x)
  | plt.Text x => ret (VText x)
  | plt.Bool x => ret (VBool x)
  | plt.Unit => ret VUnit
  | plt.Force x => v <~ ev rho x ;; force_value v
  | plt.Delay x => ret (VDelay rho x)
  | plt.Error => ([], Failed)
  end.

End Step.

(** Modelled from the spec: the reduction engine for the emitted terms,
    which is not part of the compiler module.  A lambda over several names
    and an application to several arguments are curried (a lambda over no
    name is not a term); the branches of a conditional are evaluated on
    demand; the bindings of a let are evaluated in order; [Delay] defers a
    term and [Force] runs a deferred term or supplies the type argument of
    a built-in, and stops on any other value; [Error] is the explicit
    failure term.  [fuel] bounds the depth of the evaluation. *)
Fixpoint eval (fuel : nat) : environment -> plt.AST -> run :=
  match fuel with
  | O => fun _ _ => ([], OutOfFuel)
  | S fuel' => eval_step (eval fuel')
  end.

(** [lookup(env, name)]: the environment applied to the name's bytes. *)
Definition lookup_term (env : plt.AST) (name : string) : plt.AST :=
  plt.Apply env [plt.ByteString (encode name)].

(** The continuation [emulate_nth] supplies, as a closure over [rho]. *)
Definition projection (rho : environment) (n : Z) (size : nat) : value :=
  VLambda rho
    (map (fun i => String.append "v" (str_of_nat i)) (seq 0 size))
    (plt.Var (String.append "v" (str_of_Z n))).

(** The built-in at the head of a lowered operation [\s -> builtin l r]. *)
Definition emitted_builtin (t : plt.AST) : option BuiltInFun :=
  match t with
  | plt.Lambda _ (plt.Apply (plt.BuiltIn b) _) => Some b
  | _ => None
  end.

(** [r'] is the run [r] unless [r] stopped for lack of fuel. *)
Definition refines (r r' : run) : Prop :=
  snd r <> OutOfFuel -> r' = r.

Definition ev_refines (ev ev' : environment -> plt.AST -> run) : Prop :=
  forall rho t, refines (ev rho t) (ev' rho t).

(** ** The visitor's loops as functions of their own *)

(** The loop of [visit_sequence], by recursion on the statement list. *)
Fixpoint threaded (node_seq : list stmt) : result plt.AST :=
  match node_seq with
  | [] => OK (plt.Var STATEMONAD)
  | n :: rest =>
      s <- threaded rest ;;
      compiled_stmt <- visit_stmt n ;;
      OK (plt.Apply compiled_stmt [s])
  end.

(** The loop of [visit_sequence] over a function body without its final
    [Return]. *)
Fixpoint threaded_body (body : list stmt) : result plt.AST :=
  match body with
  | [] => OK (plt.Var STATEMONAD)
  | [Return _] => OK (plt.Var STATEMONAD)
  | n :: rest =>
      s <- threaded_body rest ;;
      compiled_stmt <- visit_stmt n ;;
      OK (plt.Apply compiled_stmt [s])
  end.

Definition is_Return (n : stmt) : bool :=
  match n with
  | Return _ => true
  | _ => false
  end.

(** The copy of a function body [visit_FunctionDef] works on: a [Return] of
    [None] is appended unless the body ends in a [Return]. *)
Definition with_return (body : list stmt) : list stmt :=
  if is_Return (last body Pass) then body else body ++ [Return None].

(** The generator of [visit_Call]: each argument lowered and applied to the
    environment, left to right. *)
Fixpoint visit_args (args : list expr) : result (list plt.AST) :=
  match args with
  | [] => OK []
  | a :: rest =>
      x <- visit_expr a ;;
      xs <- visit_args rest ;;
      OK (plt.Apply x [plt.Var STATEMONAD] :: xs)
  end.

(** ** The rules as the specification words them

    Kept apart from the visitor, for comparison with what it emits. *)

(** Sequencing of two statements: the environment produced by the first
    feeds the second. *)
Definition sequence_as_specified (lower_s1 lower_s2 : plt.AST) : plt.AST :=
  plt.Lambda [STATEMONAD]
    (plt.Apply lower_s2 [plt.Apply lower_s1 [plt.Var STATEMONAD]]).

(** Call: the lowered callee applied to the environment, then to the
    argument values. *)
Definition Call_as_specified (lower_func : plt.AST)
    (lower_args : list plt.AST) : plt.AST :=
  plt.Lambda [STATEMONAD]
    (plt.Apply (plt.Apply lower_func [plt.Var STATEMONAD])
       (map (fun a => plt.Apply a [plt.Var STATEMONAD]) lower_args)).

(** Expr-statement: the discard binding applied to the lowered expression
    applied to the environment. *)
Definition Expr_as_specified (lower_expr : plt.AST) : plt.AST :=
  plt.Lambda [STATEMONAD]
    (plt.Apply (plt.Lambda ["_"] (plt.Var STATEMONAD))
       [plt.Apply lower_expr [plt.Var STATEMONAD]]).

(** ** Programs the statements below refer to *)

Definition int_const (z : Z) : expr := Constant IntegerType (CInt z).

Definition load (typ : type) (id : string) : expr := Name typ id Load.

Definition assign (id : string) (value : expr) : stmt :=
  Assign [Name (typ_of value) id Store] value.

(** [x = 1; x = 2] *)
Definition reassign_x : list stmt :=
  [assign "x" (int_const 1); assign "x" (int_const 2)].

(** [x = 1; y = x] *)
Definition copy_x_to_y : list stmt :=
  [assign "x" (int_const 1); assign "y" (load IntegerType "x")].

(** [t[True]], for a pair [t] *)
Definition t_at_True : expr :=
  Subscript IntegerType (load (TupleType [IntegerType; BoolType]) "t")
    (Index (Constant BoolType (CBool true))).

(** [print(1)] *)
Definition call_print_1 : expr :=
  Call UnitType (load (FunctionType [IntegerType] UnitType) "print")
    [int_const 1].

(** [while i < 3: i = i + 1] *)
Definition i_lt_3 : expr :=
  Compare BoolType (load IntegerType "i") [ast.Lt] [int_const 3].

Definition i_plus_1 : stmt :=
  assign "i" (BinOp IntegerType (load IntegerType "i") ast.Add (int_const 1)).

Definition count_to_3 : stmt := While i_lt_3 [i_plus_1] [].

(** An environment in which [name] is bound to the integer [z], on top of
    the environment [old]. *)
Definition bound_to (name : string) (z : Z) (old : plt.AST) : plt.AST :=
  extend_statemonad [name] [plt.Integer z] old.

(** The term [f] applied [n] times to [x]. *)
Fixpoint iterate (n : nat) (f x : plt.AST) : plt.AST :=
  match n with
  | O => x
  | S n' => plt.Apply f [iterate n' f x]
  end.

(** ** Notions the further properties are stated with *)

(** One conditional of the chain [extend_statemonad] builds, around the
    chain built so far. *)
Definition link (additional_compares : plt.AST) (nv : string * plt.AST)
    : plt.AST :=
  plt.Ite
    (plt.Apply (plt.BuiltIn EqualsByteString)
       [plt.Var "x"; plt.ByteString (encode (fst nv))])
    (snd nv)
    additional_compares.

(** The body of the function [g] of [visit_While]: test, then either the
    recursive call on the environment the body returns, or the environment. *)
Definition loop_step (compiled_c compiled_s : plt.AST) : plt.AST :=
  plt.Ite
    (plt.Apply compiled_c [plt.Var "s"])
    (plt.Apply (plt.Var "f")
       [plt.Apply compiled_s [plt.Var "s"]; plt.Var "f"])
    (plt.Var "s").

(** The value of [g] in a loop entered with the environment [entry]. *)
Definition loop_closure (rho : environment) (entry : value)
    (compiled_c compiled_s : plt.AST) : value :=
  VLambda (("s", entry) :: rho) ["s"; "f"] (loop_step compiled_c compiled_s).

(** The bindings [loop_step] runs under when [g] is called on the
    environment [current]. *)
Definition loop_frame (rho : environment) (entry : value)
    (compiled_c compiled_s : plt.AST) (current : value) : environment :=
  ("f", loop_closure rho entry compiled_c compiled_s)
    :: ("s", current) :: ("s", entry) :: rho.

(** The value the literal of a constant evaluates to; the unit value for a
    constant that has no literal. *)
Definition constant_value (c : constant) : value :=
  match c with
  | CStr s => VText s
  | CBytes b => VByteString b
  | CInt z => VInteger z
  | CBool b => VBool b
  | CNone => VUnit
  | COther _ _ => VUnit
  end.

(** Whether every variable of [t] is bound: by a lambda or a let of [t]
    around it, or by one of the names [bound].  The bindings of a let are in
    scope of the later bindings and of the body. *)
Fixpoint closed_under (bound : list string) (t : plt.AST) : bool :=
  match t with
  | plt.Var x => existsb (String.eqb x) bound
  | plt.Lambda vars term => closed_under (vars ++ bound) term
  | plt.Apply f xs => closed_under bound f && forallb (closed_under bound) xs
  | plt.Ite i t e =>
      closed_under bound i && closed_under bound t && closed_under bound e
  | plt.Let bindings term =>
      (fix bind_all (bs : list (string * plt.AST)) (bound : list string)
         : bool :=
         match bs with
         | [] => closed_under bound term
         | (x, b) :: bs' => closed_under bound b && bind_all bs' (x :: bound)
         end) bindings bound
  | plt.Force x => closed_under bound x
  | plt.Delay x => closed_under bound x
  | _ => true
  end.

(** Whether every tuple subscript of an expression names a position of its
    tuple: an integer index lies within the tuple type of the subscripted
    value, and a constant index of another kind has as its text the decimal
    of such a position (the projection's variable is made of that text). *)
Fixpoint indices_in_range (node : expr) : bool :=
  match node with
  | BinOp _ left_ _ right_ => indices_in_range left_ && indices_in_range right_
  | Compare _ left_ _ comparators =>
      indices_in_range left_ && forallb indices_in_range comparators
  | Call _ func args => indices_in_range func && forallb indices_in_range args
  | Subscript _ value slice =>
      indices_in_range value &&
      match slice, typ_of value with
      | Index (Constant _ (CInt n)), TupleType typs =>
          Z.leb 0 n && Z.ltb n (Z.of_nat (length typs))
      | Index (Constant _ n), TupleType typs =>
          existsb (String.eqb (py_str n))
            (map str_of_nat (seq 0 (length typs)))
      | _, _ => true
      end
  | _ => true
  end.

(** The same for the expressions of a statement. *)
Fixpoint stmt_indices_in_range (node : stmt) : bool :=
  match node with
  | FunctionDef _ _ body => forallb stmt_indices_in_range body
  | Assign _ value => indices_in_range value
  | Expr value => indices_in_range value
  | Return (Some value) => indices_in_range value
  | While test body orelse =>
      indices_in_range test && forallb stmt_indices_in_range body
      && forallb stmt_indices_in_range orelse
  | _ => true
  end.


(** ** Fuel

    A run that did not stop for lack of fuel is the run at every larger
    amount of fuel. *)

Lemma refines_refl (r : run) : refines r r.
Proof. intros _. reflexivity. Qed.

Lemma andthen_refines (r r' : run) (k k' : value -> run) :
  refines r r' ->
  (forall v, refines (k v) (k' v)) ->
  refines (andthen r k) (andthen r' k').
Proof.
  intros Hr Hk Hfinal.
  destruct r as [events o].
  destruct o as [v | | | ]; simpl in Hfinal |- *;
    try (rewrite Hr by (simpl; discriminate); reflexivity).
  - rewrite Hr by (simpl; discriminate). simpl.
    specialize (Hk v).
    destruct (k v) as [events' o'] eqn:Ek.
    rewrite Hk by exact Hfinal. reflexivity.
  - contradiction.
Qed.

Section Monotone.

Variables ev ev' : environment -> plt.AST -> run.
Hypothesis Hev : ev_refines ev ev'.

Lemma apply_value_refines (f a : value) :
  refines (apply_value ev f a) (apply_value ev' f a).
Proof.
  destruct f as [ | | | | | rho vars term | | b args | b args]; simpl;
    try apply refines_refl.
  destruct vars as [ | x [ | y vars]]; try apply refines_refl.
  apply Hev.
Qed.

Lemma force_value_refines (v : value) :
  refines (force_value ev v) (force_value ev' v).
Proof.
  destruct v; simpl; try apply refines_refl. apply Hev.
Qed.

Lemma apply_args_refines (rho : environment) (xs : list plt.AST) :
  forall f f', refines f f' ->
  refines (apply_args ev rho f xs) (apply_args ev' rho f' xs).
Proof.
  induction xs as [ | x xs IH]; intros f f' Hf; simpl.
  - exact Hf.
  - apply IH. apply andthen_refines; [exact Hf | ].
    intros vf. apply andthen_refines; [apply Hev | ].
    intros va. apply apply_value_refines.
Qed.

Lemma eval_let_refines (bindings : list (string * plt.AST)) (term : plt.AST) :
  forall rho,
  refines (eval_let ev rho bindings term) (eval_let ev' rho bindings term).
Proof.
  induction bindings as [ | [x b] bindings IH]; intros rho; simpl.
  - apply Hev.
  - apply andthen_refines; [apply Hev | ]. intros v. apply IH.
Qed.

Lemma eval_step_refines : ev_refines (eval_step ev) (eval_step ev').
Proof.
  intros rho t. destruct t; simpl; try apply refines_refl.
  - apply apply_args_refines. apply Hev.
  - apply andthen_refines; [apply Hev | ].
    intros c. destruct c as [ | | | [ | ] | | | | | ];
      try apply refines_refl; apply Hev.
  - apply eval_let_refines.
  - apply andthen_refines; [apply Hev | ]. apply force_value_refines.
Qed.

End Monotone.

Lemma eval_S (fuel : nat) : ev_refines (eval fuel) (eval (S fuel)).
Proof.
  induction fuel as [ | fuel IH].
  - intros rho t Hfinal. simpl in Hfinal. contradiction.
  - change (ev_refines (eval_step (eval fuel)) (eval_step (eval (S fuel)))).
    apply eval_step_refines. exact IH.
Qed.

Lemma eval_more (extra fuel : nat) (rho : environment) (t : plt.AST) :
  refines (eval fuel rho t) (eval (extra + fuel) rho t).
Proof.
  induction extra as [ | extra IH]; intros Hfinal; simpl plus.
  - reflexivity.
  - rewrite <- (IH Hfinal) in Hfinal |- *. apply eval_S. exact Hfinal.
Qed.

(** The run of a term does not depend on how much fuel was enough. *)
Lemma eval_deterministic (n m : nat) (rho : environment) (t : plt.AST) :
  snd (eval n rho t) <> OutOfFuel ->
  snd (eval m rho t) <> OutOfFuel ->
  eval n rho t = eval m rho t.
Proof.
  intros Hn Hm.
  rewrite <- (eval_more m n rho t Hn).
  rewrite <- (eval_more n m rho t Hm).
  rewrite Nat.add_comm. reflexivity.
Qed.

(** ** The visitor's loops, as the compiler writes them *)

Lemma fold_threaded (node_seq : list stmt) :
  fold_left
    (fun acc n =>
       s <- acc ;;
       compiled_stmt <- visit_stmt n ;;
       OK (plt.Apply compiled_stmt [s]))
    (rev node_seq)
    (OK (plt.Var STATEMONAD))
  = threaded node_seq.
Proof.
  induction node_seq as [ | n rest IH]; simpl.
  - reflexivity.
  - rewrite fold_left_app. simpl. rewrite IH. reflexivity.
Qed.

Lemma visit_sequence_threaded (node_seq : list stmt) :
  visit_sequence node_seq =
  (s <- threaded node_seq ;; OK (plt.Lambda [STATEMONAD] s)).
Proof.
  unfold visit_sequence. rewrite fold_threaded. reflexivity.
Qed.

(** [visit_While] with an else-branch is [visit_sequence] of the loop without
    it followed by the else-statements, once test and body have lowered. *)
Lemma visit_While_orelse (test : expr) (body : list stmt) (o : stmt)
    (orelse : list stmt) :
  visit_stmt (While test body (o :: orelse)) =
  (compiled_c <- visit_expr test ;;
   compiled_s <- visit_sequence body ;;
   visit_sequence (While test body [] :: o :: orelse)).
Proof.
  rewrite !visit_sequence_threaded.
  change (visit_stmt (While test body (o :: orelse))) with
    (compiled_c <- visit_expr test ;;
     s <- threaded body ;;
     after <- threaded (o :: orelse) ;;
     OK (plt.Lambda [STATEMONAD]
           (plt.Apply
              (while_term compiled_c (plt.Lambda [STATEMONAD] s)) [after]))).
  change (threaded (While test body [] :: o :: orelse)) with
    (s <- threaded (o :: orelse) ;;
     compiled_stmt <-
       (compiled_c <- visit_expr test ;;
        s' <- threaded body ;;
        OK (while_term compiled_c (plt.Lambda [STATEMONAD] s'))) ;;
     OK (plt.Apply compiled_stmt [s])).
  generalize (threaded (o :: orelse)) as rest.
  destruct (visit_expr test) as [c | e]; [ | reflexivity].
  destruct (threaded body) as [s | e]; [ | reflexivity].
  intros [after | e]; reflexivity.
Qed.

Lemma removelast_with_return (n : stmt) (body : list stmt) :
  threaded_body (n :: body) = threaded (removelast (with_return (n :: body))).
Proof.
  revert n. induction body as [ | m body IH]; intros n.
  - unfold with_return. destruct n; reflexivity.
  - assert (Hlast : last (n :: m :: body) Pass = last (m :: body) Pass)
      by reflexivity.
    assert (Hwith : with_return (n :: m :: body) = n :: with_return (m :: body)).
    { unfold with_return. rewrite Hlast.
      destruct (is_Return (last (m :: body) Pass)); reflexivity. }
    rewrite Hwith.
    assert (Hne : with_return (m :: body) <> []).
    { unfold with_return.
      destruct (is_Return (last (m :: body) Pass)); [discriminate | ].
      destruct body; discriminate. }
    specialize (IH m).
    destruct (with_return (m :: body)) as [ | m' body'];
      [contradiction | ].
    change (removelast (n :: m' :: body')) with (n :: removelast (m' :: body')).
    cbn [threaded]. rewrite <- IH.
    destruct n; reflexivity.
Qed.

(** [visit_FunctionDef], as the compiler writes it: the body without its last
    statement goes through [visit_sequence], the value of the last statement
    through [visit]. *)
Lemma visit_FunctionDef_eq (name : string) (args : list string) (n : stmt)
    (body : list stmt) :
  visit_stmt (FunctionDef name args (n :: body)) =
  (compiled_body <- visit_sequence (removelast (with_return (n :: body))) ;;
   compiled_return <- visit_optional (final_value (n :: body)) ;;
   OK (plt.Lambda [STATEMONAD]
         (plt.Lambda
            (map (fun i => String.append "p" (str_of_nat i))
               (seq 0 (length args)))
            (plt.Apply compiled_return
               [plt.Apply compiled_body
                  [extend_statemonad args
                     (map plt.Var
                        (map (fun i => String.append "p" (str_of_nat i))
                           (seq 0 (length args))))
                     (plt.Var STATEMONAD)]])))).
Proof.
  rewrite visit_sequence_threaded, <- removelast_with_return.
  change (visit_stmt (FunctionDef name args (n :: body))) with
    (s <- threaded_body (n :: body) ;;
     compiled_return <- visit_optional (final_value (n :: body)) ;;
     OK (plt.Lambda [STATEMONAD]
           (plt.Lambda
              (map (fun i => String.append "p" (str_of_nat i))
                 (seq 0 (length args)))
              (plt.Apply compiled_return
                 [plt.Apply (plt.Lambda [STATEMONAD] s)
                    [extend_statemonad args
                       (map plt.Var
                          (map (fun i => String.append "p" (str_of_nat i))
                             (seq 0 (length args))))
                       (plt.Var STATEMONAD)]])))).
  destruct (threaded_body (n :: body)); reflexivity.
Qed.

Lemma visit_Call_eq (typ : type) (func : expr) (args : list expr) :
  visit_expr (Call typ func args) =
  (f <- visit_expr func ;;
   xs <- visit_args args ;;
   OK (plt.Lambda [STATEMONAD] (plt.Apply f xs))).
Proof. reflexivity. Qed.

(** A sequence of two statements: the second statement's term is applied to
    the incoming environment, the first statement's term to the result. *)
Lemma visit_sequence_pair (s1 s2 : stmt) (c1 c2 : plt.AST) :
  visit_stmt s1 = OK c1 ->
  visit_stmt s2 = OK c2 ->
  visit_sequence [s1; s2] =
  OK (plt.Lambda [STATEMONAD]
        (plt.Apply c1 [plt.Apply c2 [plt.Var STATEMONAD]])).
Proof.
  intros H1 H2. rewrite visit_sequence_threaded. simpl.
  rewrite H1, H2. reflexivity.
Qed.

(** Runs at a fixed amount of fuel extend to every larger amount. *)
Ltac enough_fuel :=
  match goal with
  | |- eval (?extra + ?k) ?rho ?t = _ =>
      rewrite (eval_more extra k rho t) by (vm_compute; discriminate);
      vm_compute; reflexivity
  end.

Lemma run_eta (r : run) : (let (events, o) := r in (events, o)) = r.
Proof. destruct r; reflexivity. Qed.

Lemma visit_Expr_eq (value : expr) (c : plt.AST) :
  visit_expr value = OK c ->
  visit_stmt (Expr value) =
  OK (plt.Lambda [STATEMONAD]
        (plt.Apply (plt.Lambda ["_"] (plt.Var STATEMONAD)) [c])).
Proof. intros H. simpl. rewrite H. reflexivity. Qed.

(** ** Statement sequences *)

(** C1 (the compiler departs from the claim).  [visit_sequence] applies the
    term of the last statement to the incoming environment first, so the
    environment runs through the statements in reverse source order.  For
    [x = 1; x = 2] the emitted term is [\s -> c1 (c2 s)], not
    [\s -> c2 (c1 s)]; applied to the bootstrap environment it leaves [x]
    bound to 1, where source order leaves 2.  For [x = 1; y = x] the lookup
    of [y] reaches the failure term, because [y = x] ran in an environment
    without [x]. *)
Theorem visit_sequence_reverses_source_order :
  (exists c1 c2 : plt.AST,
     visit_stmt (assign "x" (int_const 1)) = OK c1 /\
     visit_stmt (assign "x" (int_const 2)) = OK c2 /\
     visit_sequence reassign_x =
       OK (plt.Lambda [STATEMONAD]
             (plt.Apply c1 [plt.Apply c2 [plt.Var STATEMONAD]])) /\
     visit_sequence reassign_x <> OK (sequence_as_specified c1 c2) /\
     (forall extra,
        eval (extra + 20) []
          (lookup_term
             (plt.Apply
                (plt.Lambda [STATEMONAD]
                   (plt.Apply c1 [plt.Apply c2 [plt.Var STATEMONAD]]))
                [INITIAL_STATE]) "x")
        = ([], Value (VInteger 1))) /\
     (forall extra,
        eval (extra + 20) []
          (lookup_term
             (plt.Apply (sequence_as_specified c1 c2) [INITIAL_STATE]) "x")
        = ([], Value (VInteger 2)))) /\
  (exists t : plt.AST,
     visit_sequence copy_x_to_y = OK t /\
     (forall extra,
        eval (extra + 20) [] (lookup_term (plt.Apply t [INITIAL_STATE]) "y")
        = ([], Failed))).
Proof.
  split.
  - eexists. eexists.
    split; [reflexivity | ].
    split; [reflexivity | ].
    split; [reflexivity | ].
    split; [vm_compute; discriminate | ].
    split; intros extra; enough_fuel.
  - eexists. split; [reflexivity | ].
    intros extra. enough_fuel.
Qed.

(** ** Calls *)

(** C2 (the compiler departs from the claim).  [visit_Call] applies the
    lowered callee directly to the argument values: the callee is not applied
    to the environment first, although each argument is.  For [print(1)] the
    emitted term binds the value 1 as the callee's environment, and applying
    it to the bootstrap environment is stuck on [1 "print"]; the term of the
    specified shape looks [print] up in the environment. *)
Theorem visit_Call_callee_not_applied_to_environment :
  exists f x : plt.AST,
    visit_expr (load (FunctionType [IntegerType] UnitType) "print") = OK f /\
    visit_expr (int_const 1) = OK x /\
    visit_expr call_print_1 =
      OK (plt.Lambda [STATEMONAD]
            (plt.Apply f [plt.Apply x [plt.Var STATEMONAD]])) /\
    visit_expr call_print_1 <> OK (Call_as_specified f [x]) /\
    (forall extra,
       eval (extra + 20) []
         (plt.Apply
            (plt.Lambda [STATEMONAD]
               (plt.Apply f [plt.Apply x [plt.Var STATEMONAD]]))
            [INITIAL_STATE])
       = ([], Stuck)) /\
    (forall extra,
       exists rho vars body,
         eval (extra + 20) []
           (plt.Apply (Call_as_specified f [x]) [INITIAL_STATE])
         = ([], Value (VLambda rho vars body))).
Proof.
  eexists. eexists.
  split; [reflexivity | ].
  split; [reflexivity | ].
  split; [reflexivity | ].
  split; [vm_compute; discriminate | ].
  split; intros extra.
  - enough_fuel.
  - eexists. eexists. eexists. enough_fuel.
Qed.

(** ** Expression statements *)

(** C3 (the compiler departs from the claim).  [visit_Expr] hands the discard
    binding the lowered expression itself, not the lowered expression
    applied to the environment, so the expression is never evaluated.  For
    the statement [y] with [y] unbound, evaluating the expression in the
    bootstrap environment reaches the failure term, yet the emitted statement
    returns the environment without any failure; the term of the specified
    shape fails as the expression does. *)
Theorem visit_Expr_does_not_evaluate_expression :
  exists c : plt.AST,
    visit_expr (load IntegerType "y") = OK c /\
    visit_stmt (Expr (load IntegerType "y")) =
      OK (plt.Lambda [STATEMONAD]
            (plt.Apply (plt.Lambda ["_"] (plt.Var STATEMONAD)) [c])) /\
    visit_stmt (Expr (load IntegerType "y")) <> OK (Expr_as_specified c) /\
    (forall extra,
       eval (extra + 20) [] (plt.Apply c [INITIAL_STATE]) = ([], Failed)) /\
    (forall extra,
       eval (extra + 20) []
         (plt.Apply
            (plt.Lambda [STATEMONAD]
               (plt.Apply (plt.Lambda ["_"] (plt.Var STATEMONAD)) [c]))
            [INITIAL_STATE])
       = eval (extra + 20) [] INITIAL_STATE) /\
    (forall extra,
       eval (extra + 20) [] (plt.Apply (Expr_as_specified c) [INITIAL_STATE])
       = ([], Failed)).
Proof.
  eexists.
  split; [reflexivity | ].
  split; [reflexivity | ].
  split; [vm_compute; discriminate | ].
  split; [intros extra; enough_fuel | ].
  split; [ | intros extra; enough_fuel].
  intros extra.
  rewrite (eval_more extra 20 [] INITIAL_STATE) by (vm_compute; discriminate).
  enough_fuel.
Qed.

(** ** The environment encoder *)

(** C4, as amended.  When one extension lists the same name twice, the lookup
    of that name runs the value listed last: its test is the outermost of the
    conditional chain.  The lookup is the evaluation of [v2] where the
    chain's parameter [x] holds the name. *)
Theorem extend_duplicate_last_listed_wins
    (fuel : nat) (rho : environment) (old : plt.AST) (n : string)
    (v1 v2 : plt.AST) :
  eval (4 + fuel) rho (lookup_term (extend_statemonad [n; n] [v1; v2] old) n)
  = eval (2 + fuel) (("x", VByteString (encode n)) :: rho) v2.
Proof.
  change (4 + fuel) with (S (S (S (S fuel)))).
  change (2 + fuel) with (S (S fuel)).
  cbn [eval].
  unfold lookup_term, extend_statemonad. cbn [combine fold_left fst snd].
  cbn [eval_step apply_args andthen ret apply_value lookup String.eqb
       Ascii.eqb Bool.eqb app length Nat.eqb arity run_builtin].
  rewrite String.eqb_refl. rewrite !run_eta. reflexivity.
Qed.

(** With the values 1 and 2 listed for the name [n], the lookup never yields
    the first-listed 1. *)
Lemma extend_duplicate_first_listed_loses :
  ~ (exists fuel,
       eval fuel []
         (lookup_term
            (extend_statemonad ["n"; "n"] [plt.Integer 1; plt.Integer 2]
               (plt.Lambda ["x"] plt.Error)) "n")
       = ([], Value (VInteger 1))).
Proof.
  intros [fuel H].
  assert (Hdet := eval_deterministic fuel 10 []
    (lookup_term
       (extend_statemonad ["n"; "n"] [plt.Integer 1; plt.Integer 2]
          (plt.Lambda ["x"] plt.Error)) "n")).
  rewrite H in Hdet.
  specialize (Hdet ltac:(simpl; discriminate) ltac:(vm_compute; discriminate)).
  vm_compute in Hdet. discriminate.
Qed.

(** ** The built-in [print] *)

(** C5.  [print] applied to an environment and then to an argument applies
    the argument to the environment and then stops: [Force] encloses the
    application of [Trace] instead of the built-in, so that [Trace] meets
    its first operand before it has been forced.  The events are those of
    the argument's own run: no trace event is emitted and no value is
    returned.  Whatever the environment and the argument are, and however
    long it runs, [print] returns no value. *)
Theorem print_stops_on_unforced_Trace :
  (forall (fuel : nat) (va ve : value) (events : list value) (m : value),
     eval (2 + fuel) [("a", va); ("e", ve)]
       (plt.Apply (plt.Var "a") [plt.Var "e"])
     = (events, Value m) ->
     eval (5 + fuel) [("a", va); ("e", ve)]
       (plt.Apply (PythonBuiltIn.value PythonBuiltIn.print)
          [plt.Var "e"; plt.Var "a"])
     = (events, Stuck)) /\
  (forall (fuel : nat) (rho : environment) (e a : plt.AST)
          (events : list value) (v : value),
     eval fuel rho
       (plt.Apply (PythonBuiltIn.value PythonBuiltIn.print) [e; a])
     <> (events, Value v)).
Proof.
  split.
  - intros fuel va ve events m.
    change (2 + fuel) with (S (S fuel)).
    change (5 + fuel) with (S (S (S (S (S fuel))))).
    cbn [eval].
    cbn [PythonBuiltIn.value].
    cbn [eval_step apply_args andthen ret apply_value lookup String.eqb
         Ascii.eqb Bool.eqb app length Nat.eqb arity run_builtin force_value
         STATEMONAD].
    rewrite !run_eta. intros H. rewrite H.
    cbn [andthen ret apply_value app].
    rewrite !app_nil_r. reflexivity.
  - intros fuel rho e a events v H.
    destruct fuel as [ | [ | n]]; try discriminate.
    change (eval (S (S n))) with (eval_step (eval (S n))) in H.
    cbn [eval_step apply_args PythonBuiltIn.value] in H.
    change (eval (S n) rho (plt.Lambda [STATEMONAD] ?t))
      with (ret (VLambda rho [STATEMONAD] t)) in H.
    cbn [andthen ret] in H.
    destruct (eval (S n) rho e) as [events_e [ve | | | ]];
      cbn [andthen apply_value STATEMONAD] in H; try discriminate.
    change (eval (S n) ?r (plt.Lambda ["x"] ?t))
      with (ret (VLambda r ["x"] t)) in H.
    cbn [andthen ret] in H.
    destruct (eval (S n) rho a) as [events_a [va | | | ]];
      cbn [andthen apply_value] in H; try discriminate.
    destruct n as [ | [ | n]]; try discriminate.
    change (eval (S (S (S n)))) with (eval_step (eval_step (eval (S n))))
      in H.
    cbn [eval_step apply_args andthen ret] in H.
    change (eval (S n) ?r (plt.BuiltIn Trace))
      with (ret (VBuiltIn Trace [])) in H.
    cbn [andthen ret] in H.
    destruct (eval (S n) _ (plt.Apply (plt.Var "x") _))
      as [events_m [m | | | ]];
      cbn [andthen apply_value] in H; discriminate.
Qed.

Lemma print_stops_on_unforced_Trace_witness :
  eval (2 + 1)
    [("a", VLambda [] ["s"] (plt.Text "hi"));
     ("e", VLambda [] ["x"] plt.Error)]
    (plt.Apply (plt.Var "a") [plt.Var "e"])
  = ([], Value (VText "hi")) /\
  eval (5 + 1)
    [("a", VLambda [] ["s"] (plt.Text "hi"));
     ("e", VLambda [] ["x"] plt.Error)]
    (plt.Apply (PythonBuiltIn.value PythonBuiltIn.print)
       [plt.Var "e"; plt.Var "a"])
  = ([], Stuck).
Proof.
  split.
  - reflexivity.
  - apply (proj1 print_stops_on_unforced_Trace 1
             (VLambda [] ["s"] (plt.Text "hi"))
             (VLambda [] ["x"] plt.Error) [] (VText "hi")).
    reflexivity.
Defined.

(** [print] applied to the bootstrap environment and to the lowered
    constant ['hi'] stops with nothing emitted. *)
Lemma print_of_text_stops :
  visit_expr (Constant StringType (CStr "hi"))
  = OK (plt.Lambda [STATEMONAD] (plt.Text "hi")) /\
  eval 10 []
    (plt.Apply (PythonBuiltIn.value PythonBuiltIn.print)
       [INITIAL_STATE; plt.Lambda [STATEMONAD] (plt.Text "hi")])
  = ([], Stuck).
Proof. split; reflexivity. Qed.

(** For comparison, the same application where [Force] encloses the built-in
    alone, which is what lets [Trace] take its operands: the text is emitted,
    and the value returned is the environment, the second operand. *)
Lemma forced_Trace_emits_and_returns_environment :
  exists env,
    eval 10 [] INITIAL_STATE = ([], Value env) /\
    eval 10 []
      (plt.Apply
         (plt.Lambda [STATEMONAD]
            (plt.Lambda ["x"]
               (plt.Apply (plt.Force (plt.BuiltIn Trace))
                  [plt.Apply (plt.Var "x") [plt.Var STATEMONAD];
                   plt.Var STATEMONAD])))
         [INITIAL_STATE; plt.Lambda [STATEMONAD] (plt.Text "hi")])
    = ([VText "hi"], Value env).
Proof.
  eexists. split; vm_compute; reflexivity.
Qed.

(** ** Loops *)

(** C6.  The lowered [while i < 3: i = i + 1], applied to an environment
    that binds [i] to 0, returns an environment in which [i] is 3, for every
    amount of fuel from 40 on.  Applying the lowered body three times by hand
    gives the same binding; the lowered test holds after 0, 1 and 2
    applications of the body and fails after 3. *)
Theorem while_loop_counts_to_three
    (extra : nat) (rho : environment) (old : plt.AST) :
  exists loop body test : plt.AST,
    visit_stmt count_to_3 = OK loop /\
    visit_sequence [i_plus_1] = OK body /\
    visit_expr i_lt_3 = OK test /\
    eval (extra + 40) rho
      (lookup_term (plt.Apply loop [bound_to "i" 0 old]) "i")
    = ([], Value (VInteger 3)) /\
    eval (extra + 40) rho
      (lookup_term (iterate 3 body (bound_to "i" 0 old)) "i")
    = ([], Value (VInteger 3)) /\
    eval (extra + 40) rho
      (plt.Apply test [iterate 0 body (bound_to "i" 0 old)])
    = ([], Value (VBool true)) /\
    eval (extra + 40) rho
      (plt.Apply test [iterate 1 body (bound_to "i" 0 old)])
    = ([], Value (VBool true)) /\
    eval (extra + 40) rho
      (plt.Apply test [iterate 2 body (bound_to "i" 0 old)])
    = ([], Value (VBool true)) /\
    eval (extra + 40) rho
      (plt.Apply test [iterate 3 body (bound_to "i" 0 old)])
    = ([], Value (VBool false)).
Proof.
  eexists. eexists. eexists.
  split; [reflexivity | ].
  split; [reflexivity | ].
  split; [reflexivity | ].
  repeat split; enough_fuel.
Qed.

(** ** Emulated tuples *)

(** The evaluation of a projection, once the elements have been run. *)
Ltac run_projection :=
  unfold emulate_nth, emulate_tuple, projection in *;
  cbn [eval length map seq] in *;
  repeat (cbn [eval_step apply_args andthen ret apply_value lookup
               String.eqb Ascii.eqb Bool.eqb fst snd];
          rewrite ?run_eta;
          repeat match goal with
                 | H : eval_step _ _ _ = _ |- _ => rewrite H
                 end);
  cbn; rewrite ?app_nil_r, <- ?app_assoc; reflexivity.

(** C7.  Projecting index [i] of the emulated tuple of [xs], for two or three
    elements, runs every element in order and returns the value of the
    [i]-th.  The elements are run where the tuple's parameter [f] holds the
    projection; [rs] lists, for each element, the events it emits and its
    value. *)
Theorem emulated_tuple_projection
    (fuel : nat) (rho : environment) (xs : list plt.AST)
    (rs : list (list value * value)) (i : nat) :
  length xs = 2 \/ length xs = 3 ->
  i < length xs ->
  Forall2
    (fun x r =>
       eval (S fuel)
         (("f", projection rho (Z.of_nat i) (length xs)) :: rho) x
       = (fst r, Value (snd r)))
    xs rs ->
  eval (3 + fuel) rho
    (emulate_nth (emulate_tuple xs) (Z.of_nat i) (length xs))
  = (concat (map fst rs), Value (nth i (map snd rs) VUnit)).
Proof.
  intros Hsize Hi Hruns.
  change (3 + fuel) with (S (S (S fuel))).
  destruct xs as [ | x0 [ | x1 [ | x2 [ | x3 xs]]]];
    simpl in Hsize; try (destruct Hsize; discriminate).
  - inversion Hruns as [ | ? r0 ? ? H0 Hruns1]; subst.
    inversion Hruns1 as [ | ? r1 ? ? H1 Hruns2]; subst.
    inversion Hruns2; subst.
    destruct i as [ | [ | i]]; [ | | simpl in Hi; lia];
      run_projection.
  - inversion Hruns as [ | ? r0 ? ? H0 Hruns1]; subst.
    inversion Hruns1 as [ | ? r1 ? ? H1 Hruns2]; subst.
    inversion Hruns2 as [ | ? r2 ? ? H2 Hruns3]; subst.
    inversion Hruns3; subst.
    destruct i as [ | [ | [ | i]]]; [ | | | simpl in Hi; lia];
      run_projection.
Qed.

Lemma emulated_tuple_projection_witness :
  (length [plt.Integer 5; plt.Integer 6; plt.Integer 7] = 2 \/
   length [plt.Integer 5; plt.Integer 6; plt.Integer 7] = 3) /\
  1 < length [plt.Integer 5; plt.Integer 6; plt.Integer 7] /\
  eval (3 + 0) []
    (emulate_nth
       (emulate_tuple [plt.Integer 5; plt.Integer 6; plt.Integer 7])
       (Z.of_nat 1)
       (length [plt.Integer 5; plt.Integer 6; plt.Integer 7]))
  = (concat (map fst [(@nil value, VInteger 5); (@nil value, VInteger 6); (@nil value, VInteger 7)]),
     Value
       (nth 1 (map snd [(@nil value, VInteger 5); (@nil value, VInteger 6); (@nil value, VInteger 7)])
          VUnit)).
Proof.
  split; [right; reflexivity | ].
  split; [simpl; lia | ].
  apply (emulated_tuple_projection 0 []
           [plt.Integer 5; plt.Integer 6; plt.Integer 7]
           [(@nil value, VInteger 5); (@nil value, VInteger 6); (@nil value, VInteger 7)] 1).
  - right. reflexivity.
  - simpl. lia.
  - repeat constructor.
Defined.

(** ** Unbound names *)

Lemma eval_more_eq (extra fuel : nat) (rho : environment) (t : plt.AST)
    (r : run) :
  eval fuel rho t = r ->
  snd r <> OutOfFuel ->
  eval (extra + fuel) rho t = r.
Proof.
  intros H Hfinal. subst r. apply eval_more. exact Hfinal.
Qed.

(** A name other than the one an assignment-style extension binds is looked
    up in the environment below. *)
Lemma extend_other_name (fuel : nat) (rho : environment) (old v : plt.AST)
    (id name : string) :
  id <> name ->
  eval (4 + fuel) rho (lookup_term (extend_statemonad [id] [v] old) name)
  = eval (2 + fuel) (("x", VByteString (encode name)) :: rho)
      (plt.Apply old [plt.Var "x"]).
Proof.
  intros Hne.
  change (4 + fuel) with (S (S (S (S fuel)))).
  change (2 + fuel) with (S (S fuel)).
  cbn [eval].
  unfold lookup_term, extend_statemonad. cbn [combine fold_left fst snd].
  cbn [eval_step apply_args andthen ret apply_value lookup String.eqb
       Ascii.eqb Bool.eqb app length Nat.eqb arity run_builtin].
  assert (Hneq : String.eqb (encode name) (encode id) = false).
  { apply String.eqb_neq. unfold encode. congruence. }
  rewrite Hneq. rewrite !run_eta. reflexivity.
Qed.

Lemma lookup_INITIAL_STATE_unbound (rho : environment) (name : string) :
  name <> "print" ->
  name <> "range" ->
  eval 6 rho (lookup_term INITIAL_STATE name) = ([], Failed).
Proof.
  intros Hprint Hrange.
  assert (Hp : String.eqb (encode name) "print" = false)
    by (apply String.eqb_neq; exact Hprint).
  assert (Hr : String.eqb (encode name) "range" = false)
    by (apply String.eqb_neq; exact Hrange).
  unfold lookup_term, INITIAL_STATE, extend_statemonad.
  cbn [map PythonBuiltIn.members PythonBuiltIn.name combine fold_left fst snd].
  change (encode "print") with "print".
  change (encode "range") with "range".
  cbn [eval eval_step apply_args andthen ret apply_value lookup app length
       Nat.eqb arity run_builtin].
  rewrite !String.eqb_refl.
  cbn [eval eval_step apply_args andthen ret apply_value lookup app length
       Nat.eqb arity run_builtin].
  rewrite Hr.
  cbn [eval eval_step apply_args andthen ret apply_value lookup app length
       Nat.eqb arity run_builtin].
  rewrite Hp. reflexivity.
Qed.

Lemma read_unbound_in_INITIAL_STATE (rho : environment) (name : string) :
  name <> "print" ->
  name <> "range" ->
  eval 8 rho
    (plt.Apply
       (plt.Lambda [STATEMONAD]
          (plt.Apply (plt.Var STATEMONAD) [plt.ByteString (encode name)]))
       [INITIAL_STATE])
  = ([], Failed).
Proof.
  intros Hprint Hrange.
  assert (Hp : String.eqb (encode name) "print" = false)
    by (apply String.eqb_neq; exact Hprint).
  assert (Hr : String.eqb (encode name) "range" = false)
    by (apply String.eqb_neq; exact Hrange).
  unfold INITIAL_STATE, extend_statemonad, STATEMONAD.
  cbn [map PythonBuiltIn.members PythonBuiltIn.name combine fold_left fst snd].
  change (encode "print") with "print".
  change (encode "range") with "range".
  cbn [eval eval_step apply_args andthen ret apply_value lookup app length
       Nat.eqb arity run_builtin].
  rewrite !String.eqb_refl.
  cbn [eval eval_step apply_args andthen ret apply_value lookup app length
       Nat.eqb arity run_builtin].
  rewrite !String.eqb_refl.
  cbn [eval eval_step apply_args andthen ret apply_value lookup app length
       Nat.eqb arity run_builtin].
  rewrite Hr.
  cbn [eval eval_step apply_args andthen ret apply_value lookup app length
       Nat.eqb arity run_builtin].
  rewrite Hp. reflexivity.
Qed.

(** C8.  A name that is not a built-in is unbound in the bootstrap
    environment: applying [INITIAL_STATE] to its byte string, directly or
    through the lowered [Name] read, ends in the explicit failure term,
    without a value, for every amount of fuel from 8 on. *)
Theorem unbound_name_reaches_failure_term
    (extra : nat) (rho : environment) (typ : type) (name : string) :
  name <> "print" ->
  name <> "range" ->
  eval (extra + 8) rho (lookup_term INITIAL_STATE name) = ([], Failed) /\
  exists t : plt.AST,
    visit_expr (Name typ name Load) = OK t /\
    eval (extra + 8) rho (plt.Apply t [INITIAL_STATE]) = ([], Failed).
Proof.
  intros Hprint Hrange. split.
  - replace (extra + 8) with ((extra + 2) + 6) by lia.
    apply eval_more_eq; [ | simpl; discriminate].
    apply lookup_INITIAL_STATE_unbound; assumption.
  - eexists. split; [reflexivity | ].
    apply eval_more_eq; [ | simpl; discriminate].
    apply read_unbound_in_INITIAL_STATE; assumption.
Qed.

Lemma unbound_name_reaches_failure_term_witness :
  "total" <> "print" /\
  "total" <> "range" /\
  eval (0 + 8) [] (lookup_term INITIAL_STATE "total") = ([], Failed) /\
  exists t : plt.AST,
    visit_expr (Name IntegerType "total" Load) = OK t /\
    eval (0 + 8) [] (plt.Apply t [INITIAL_STATE]) = ([], Failed).
Proof.
  split; [discriminate | ].
  split; [discriminate | ].
  apply (unbound_name_reaches_failure_term 0 [] IntegerType "total");
    discriminate.
Defined.

(** The same holds on top of an assignment to another name: the lookup falls
    through the assignment's test to the bootstrap environment. *)
Lemma unbound_after_assignment (extra : nat) (rho : environment)
    (id name : string) (value : expr) :
  id <> name ->
  name <> "print" ->
  name <> "range" ->
  forall c : plt.AST,
    visit_stmt (assign id value) = OK c ->
    eval (extra + 12) rho (lookup_term (plt.Apply c [INITIAL_STATE]) name)
    = ([], Failed).
Proof.
  intros Hid Hprint Hrange c Hc.
  assert (Hi : String.eqb (encode name) (encode id) = false)
    by (apply String.eqb_neq; unfold encode; congruence).
  assert (Hp : String.eqb (encode name) "print" = false)
    by (apply String.eqb_neq; exact Hprint).
  assert (Hr : String.eqb (encode name) "range" = false)
    by (apply String.eqb_neq; exact Hrange).
  unfold assign in Hc. simpl in Hc.
  destruct (visit_expr value) as [compiled_e | e]; [ | discriminate].
  simpl in Hc. injection Hc as <-.
  apply eval_more_eq; [ | simpl; discriminate].
  unfold lookup_term, INITIAL_STATE, extend_statemonad, STATEMONAD.
  cbn [map PythonBuiltIn.members PythonBuiltIn.name combine fold_left fst snd].
  change (encode "print") with "print".
  change (encode "range") with "range".
  repeat (cbn [eval eval_step apply_args andthen ret apply_value lookup app
               length Nat.eqb arity run_builtin String.eqb Ascii.eqb Bool.eqb];
          rewrite ?String.eqb_refl, ?Hi, ?Hr, ?Hp).
  reflexivity.
Qed.

(** ** Operator dispatch *)

(** The pairs the two tables list, with the built-in each maps to. *)
Lemma BinOpMap_entries (op : ast.operator) (typ : type) (b : BuiltInFun)
    (opmap : type -> option BuiltInFun) :
  BinOpMap op = Some opmap ->
  opmap typ = Some b ->
  In (op, typ, b)
    [(ast.Add, IntegerType, AddInteger);
     (ast.Add, ByteStringType, AppendByteString);
     (ast.Sub, IntegerType, SubtractInteger);
     (ast.Mult, IntegerType, MultiplyInteger);
     (ast.Div, IntegerType, DivideInteger);
     (ast.Mod, IntegerType, RemainderInteger)].
Proof.
  intros Hop Htyp.
  destruct op; simpl in Hop; try discriminate;
    injection Hop as <-; destruct typ; try discriminate;
    injection Htyp as <-; simpl; tauto.
Qed.

Lemma CmpMap_entries (op : ast.cmpop) (typ : type) (b : BuiltInFun)
    (opmap : type -> option BuiltInFun) :
  CmpMap op = Some opmap ->
  opmap typ = Some b ->
  In (op, typ, b)
    [(ast.Eq, IntegerType, EqualsInteger);
     (ast.Eq, ByteStringType, EqualsByteString);
     (ast.Eq, BoolType, EqualsInteger);
     (ast.Lt, IntegerType, LessThanInteger)].
Proof.
  intros Hop Htyp.
  destruct op; simpl in Hop; try discriminate;
    injection Hop as <-; destruct typ; try discriminate;
    injection Htyp as <-; simpl; tauto.
Qed.

(** C9, as amended.  For a pair the table lists, lowering a [BinOp] (keyed by
    the node's type) or a single-operator [Compare] (keyed by the left
    operand's type) whose operands lower succeeds and emits the built-in the
    table maps the pair to.  For a pair the table does not list, lowering
    raises [NotImplementedError] before any operand is visited: the message
    names the operator and the type when the operator has a row in the
    table, and the operator alone when it has none. *)
Theorem operator_dispatch :
  (forall typ left_ op right_ opmap b l r,
     BinOpMap op = Some opmap ->
     opmap typ = Some b ->
     visit_expr left_ = OK l ->
     visit_expr right_ = OK r ->
     visit_expr (BinOp typ left_ op right_) =
     OK (plt.Lambda [STATEMONAD]
           (plt.Apply (plt.BuiltIn b)
              [plt.Apply l [plt.Var STATEMONAD];
               plt.Apply r [plt.Var STATEMONAD]]))) /\
  (forall typ left_ op comparator opmap b l r,
     CmpMap op = Some opmap ->
     opmap (typ_of left_) = Some b ->
     visit_expr left_ = OK l ->
     visit_expr comparator = OK r ->
     visit_expr (Compare typ left_ [op] [comparator]) =
     OK (plt.Lambda [STATEMONAD]
           (plt.Apply (plt.BuiltIn b)
              [plt.Apply l [plt.Var STATEMONAD];
               plt.Apply r [plt.Var STATEMONAD]]))) /\
  (forall typ left_ op right_ opmap,
     BinOpMap op = Some opmap ->
     opmap typ = None ->
     visit_expr (BinOp typ left_ op right_) =
     Raise (NotImplementedError
              (OperationNotImplementedForType (BinOperator op) typ))) /\
  (forall typ left_ op right_,
     BinOpMap op = None ->
     visit_expr (BinOp typ left_ op right_) =
     Raise (NotImplementedError (OperationNotImplemented (BinOperator op)))) /\
  (forall typ left_ op comparator opmap,
     CmpMap op = Some opmap ->
     opmap (typ_of left_) = None ->
     visit_expr (Compare typ left_ [op] [comparator]) =
     Raise (NotImplementedError
              (OperationNotImplementedForType (CmpOperator op)
                 (typ_of left_)))) /\
  (forall typ left_ op comparator,
     CmpMap op = None ->
     visit_expr (Compare typ left_ [op] [comparator]) =
     Raise (NotImplementedError (OperationNotImplemented (CmpOperator op)))).
Proof.
  repeat split.
  - intros typ left_ op right_ opmap b l r Hop Htyp Hl Hr.
    cbn [visit_expr]. rewrite Hop, Htyp, Hl, Hr. reflexivity.
  - intros typ left_ op comparator opmap b l r Hop Htyp Hl Hr.
    cbn [visit_expr]. rewrite Hop, Htyp, Hl, Hr. reflexivity.
  - intros typ left_ op right_ opmap Hop Htyp.
    cbn [visit_expr]. rewrite Hop, Htyp. reflexivity.
  - intros typ left_ op right_ Hop.
    cbn [visit_expr]. rewrite Hop. reflexivity.
  - intros typ left_ op comparator opmap Hop Htyp.
    cbn [visit_expr]. rewrite Hop, Htyp. reflexivity.
  - intros typ left_ op comparator Hop.
    cbn [visit_expr]. rewrite Hop. reflexivity.
Qed.

Lemma operator_dispatch_witness :
  visit_expr
    (BinOp ByteStringType (Constant ByteStringType (CBytes "ab")) ast.Add
       (Constant ByteStringType (CBytes "cd")))
  = OK (plt.Lambda [STATEMONAD]
          (plt.Apply (plt.BuiltIn AppendByteString)
             [plt.Apply (plt.Lambda [STATEMONAD] (plt.ByteString "ab"))
                [plt.Var STATEMONAD];
              plt.Apply (plt.Lambda [STATEMONAD] (plt.ByteString "cd"))
                [plt.Var STATEMONAD]])) /\
  visit_expr
    (Compare BoolType (load BoolType "a") [ast.Eq] [load BoolType "b"])
  = OK (plt.Lambda [STATEMONAD]
          (plt.Apply (plt.BuiltIn EqualsInteger)
             [plt.Apply
                (plt.Lambda [STATEMONAD]
                   (plt.Apply (plt.Var STATEMONAD) [plt.ByteString "a"]))
                [plt.Var STATEMONAD];
              plt.Apply
                (plt.Lambda [STATEMONAD]
                   (plt.Apply (plt.Var STATEMONAD) [plt.ByteString "b"]))
                [plt.Var STATEMONAD]])) /\
  visit_expr (BinOp ByteStringType (int_const 1) ast.Sub (int_const 2))
  = Raise (NotImplementedError
             (OperationNotImplementedForType (BinOperator ast.Sub)
                ByteStringType)) /\
  visit_expr (BinOp IntegerType (int_const 1) ast.Pow (int_const 2))
  = Raise (NotImplementedError
             (OperationNotImplemented (BinOperator ast.Pow))) /\
  visit_expr
    (Compare BoolType (load BoolType "a") [ast.Lt] [load BoolType "b"])
  = Raise (NotImplementedError
             (OperationNotImplementedForType (CmpOperator ast.Lt) BoolType)) /\
  visit_expr (Compare BoolType (int_const 1) [ast.GtE] [int_const 2])
  = Raise (NotImplementedError
             (OperationNotImplemented (CmpOperator ast.GtE))).
Proof.
  destruct operator_dispatch as (Hbin & Hcmp & Hbin_typ & Hbin_op & Hcmp_typ
                                 & Hcmp_op).
  split.
  { eapply Hbin; reflexivity. }
  split.
  { eapply (Hcmp BoolType (load BoolType "a") ast.Eq (load BoolType "b"));
      reflexivity. }
  split.
  { eapply Hbin_typ; reflexivity. }
  split.
  { apply Hbin_op. reflexivity. }
  split.
  { eapply (Hcmp_typ BoolType (load BoolType "a") ast.Lt (load BoolType "b"));
      reflexivity. }
  apply Hcmp_op. reflexivity.
Defined.

(** The pair (Pow, Integer) is in no table; the error raised for it names the
    operator but not the type. *)
Lemma absent_operator_error_omits_type :
  BinOpMap ast.Pow = None /\
  visit_expr (BinOp IntegerType (int_const 2) ast.Pow (int_const 3))
  = Raise (NotImplementedError
             (OperationNotImplemented (BinOperator ast.Pow))) /\
  visit_expr (BinOp IntegerType (int_const 2) ast.Pow (int_const 3))
  <> Raise (NotImplementedError
              (OperationNotImplementedForType (BinOperator ast.Pow)
                 IntegerType)).
Proof.
  split; [reflexivity | ].
  split; [reflexivity | ].
  simpl. discriminate.
Qed.

(** C10.  The built-in of a lowered [Compare] is the table's entry for the
    operator and the type of the left operand, whatever the type of the left
    operand and whatever the comparator are: the lowered term is made of
    that entry and the two lowered operands, a type absent from the
    operator's row is refused whatever the comparator is, and two
    comparisons with the same operator and left type that lower emit the
    same built-in, the table's.  With an Integer left operand the integer
    comparison is emitted whatever the comparator is. *)
Theorem compare_builtin_ignores_comparator :
  (forall (typ : type) (left_ comparator : expr) (op : ast.cmpop)
          (opmap : type -> option BuiltInFun) (b : BuiltInFun)
          (l r : plt.AST),
     CmpMap op = Some opmap ->
     opmap (typ_of left_) = Some b ->
     visit_expr left_ = OK l ->
     visit_expr comparator = OK r ->
     visit_expr (Compare typ left_ [op] [comparator]) =
     OK (plt.Lambda [STATEMONAD]
           (plt.Apply (plt.BuiltIn b)
              [plt.Apply l [plt.Var STATEMONAD];
               plt.Apply r [plt.Var STATEMONAD]]))) /\
  (forall (typ : type) (left_ comparator : expr) (op : ast.cmpop)
          (opmap : type -> option BuiltInFun),
     CmpMap op = Some opmap ->
     opmap (typ_of left_) = None ->
     visit_expr (Compare typ left_ [op] [comparator]) =
     Raise (NotImplementedError
              (OperationNotImplementedForType (CmpOperator op)
                 (typ_of left_)))) /\
  (forall (typ typ' : type) (left_ left' comparator comparator' : expr)
          (op : ast.cmpop) (t t' : plt.AST),
     typ_of left' = typ_of left_ ->
     visit_expr (Compare typ left_ [op] [comparator]) = OK t ->
     visit_expr (Compare typ' left' [op] [comparator']) = OK t' ->
     exists (opmap : type -> option BuiltInFun) (b : BuiltInFun),
       CmpMap op = Some opmap /\
       opmap (typ_of left_) = Some b /\
       emitted_builtin t = Some b /\
       emitted_builtin t' = Some b) /\
  (forall (typ typ' : type) (left_ left' comparator comparator' : expr)
          (op : ast.cmpop) (l r : plt.AST),
     typ_of left_ = IntegerType ->
     visit_expr left_ = OK l ->
     visit_expr comparator = OK r ->
     (op = ast.Eq ->
      visit_expr (Compare typ left_ [op] [comparator]) =
      OK (plt.Lambda [STATEMONAD]
            (plt.Apply (plt.BuiltIn EqualsInteger)
               [plt.Apply l [plt.Var STATEMONAD];
                plt.Apply r [plt.Var STATEMONAD]]))) /\
     (op = ast.Lt ->
      visit_expr (Compare typ left_ [op] [comparator]) =
      OK (plt.Lambda [STATEMONAD]
            (plt.Apply (plt.BuiltIn LessThanInteger)
               [plt.Apply l [plt.Var STATEMONAD];
                plt.Apply r [plt.Var STATEMONAD]]))) /\
     (forall t t' : plt.AST,
        typ_of left' = typ_of left_ ->
        visit_expr (Compare typ left_ [op] [comparator]) = OK t ->
        visit_expr (Compare typ' left' [op] [comparator']) = OK t' ->
        emitted_builtin t' = emitted_builtin t /\
        (emitted_builtin t = Some EqualsInteger \/
         emitted_builtin t = Some LessThanInteger))).
Proof.
  split; [ | split; [ | split]].
  - intros typ left_ comparator op opmap b l r Hop Htyp Hl Hr.
    cbn [visit_expr]. rewrite Hop, Htyp, Hl, Hr. reflexivity.
  - intros typ left_ comparator op opmap Hop Htyp.
    cbn [visit_expr]. rewrite Hop, Htyp. reflexivity.
  - intros typ typ' left_ left' comparator comparator' op t t' Hsame Ht Ht'.
    cbn [visit_expr] in Ht, Ht'. rewrite Hsame in Ht'.
    destruct (CmpMap op) as [opmap | ]; [ | discriminate].
    destruct (opmap (typ_of left_)) as [b | ] eqn:Hb; [ | discriminate].
    exists opmap, b.
    destruct (visit_expr left_) as [l | ]; [ | discriminate].
    destruct (visit_expr comparator) as [r | ]; [ | discriminate].
    destruct (visit_expr left') as [l' | ]; [ | discriminate].
    destruct (visit_expr comparator') as [r' | ]; [ | discriminate].
    cbn [bind] in Ht, Ht'. injection Ht as <-. injection Ht' as <-.
    cbn [emitted_builtin]. repeat split; (reflexivity || exact Hb).
  - intros typ typ' left_ left' comparator comparator' op l r Hint Hl Hr.
    split; [ | split].
    + intros ->. cbn [visit_expr CmpMap]. rewrite Hint, Hl, Hr. reflexivity.
    + intros ->. cbn [visit_expr CmpMap]. rewrite Hint, Hl, Hr. reflexivity.
    + intros t t' Hsame Ht Ht'.
      cbn [visit_expr] in Ht, Ht'.
      rewrite Hsame in Ht'. rewrite Hint in Ht, Ht'. rewrite Hl, Hr in Ht.
      destruct op; cbn [CmpMap] in Ht, Ht'; try discriminate;
        cbn [bind] in Ht; injection Ht as <-;
        destruct (visit_expr left') as [l' | ]; try discriminate;
        destruct (visit_expr comparator') as [r' | ]; try discriminate;
        cbn [bind] in Ht'; injection Ht' as <-;
        cbn [emitted_builtin]; auto.
Qed.

Lemma compare_builtin_ignores_comparator_witness :
  (CmpMap ast.Eq =
     Some (fun typ =>
             match typ with
             | IntegerType => Some EqualsInteger
             | ByteStringType => Some EqualsByteString
             | BoolType => Some EqualsInteger
             | _ => None
             end) /\
   typ_of (Constant ByteStringType (CBytes "ab")) = ByteStringType /\
   visit_expr (Constant ByteStringType (CBytes "ab")) =
     OK (plt.Lambda [STATEMONAD] (plt.ByteString "ab")) /\
   visit_expr (int_const 7) = OK (plt.Lambda [STATEMONAD] (plt.Integer 7)) /\
   visit_expr
     (Compare BoolType (Constant ByteStringType (CBytes "ab")) [ast.Eq]
        [int_const 7])
   = OK (plt.Lambda [STATEMONAD]
           (plt.Apply (plt.BuiltIn EqualsByteString)
              [plt.Apply (plt.Lambda [STATEMONAD] (plt.ByteString "ab"))
                 [plt.Var STATEMONAD];
               plt.Apply (plt.Lambda [STATEMONAD] (plt.Integer 7))
                 [plt.Var STATEMONAD]]))) /\
  (typ_of (load StringType "t") = StringType /\
   visit_expr
     (Compare BoolType (load StringType "t") [ast.Eq] [int_const 7])
   = Raise (NotImplementedError
              (OperationNotImplementedForType (CmpOperator ast.Eq)
                 StringType))) /\
  (exists (opmap : type -> option BuiltInFun) (b : BuiltInFun),
     CmpMap ast.Eq = Some opmap /\
     opmap (typ_of (load BoolType "p")) = Some b /\
     emitted_builtin
       (plt.Lambda [STATEMONAD]
          (plt.Apply (plt.BuiltIn EqualsInteger)
             [plt.Apply
                (plt.Lambda [STATEMONAD]
                   (plt.Apply (plt.Var STATEMONAD) [plt.ByteString "p"]))
                [plt.Var STATEMONAD];
              plt.Apply (plt.Lambda [STATEMONAD] (plt.ByteString "ab"))
                [plt.Var STATEMONAD]])) = Some b /\
     emitted_builtin
       (plt.Lambda [STATEMONAD]
          (plt.Apply (plt.BuiltIn EqualsInteger)
             [plt.Apply (plt.Lambda [STATEMONAD] (plt.Bool true))
                [plt.Var STATEMONAD];
              plt.Apply (plt.Lambda [STATEMONAD] (plt.Integer 7))
                [plt.Var STATEMONAD]])) = Some b) /\
  (visit_expr
     (Compare BoolType (load IntegerType "i") [ast.Lt]
        [Constant ByteStringType (CBytes "ab")])
   = OK (plt.Lambda [STATEMONAD]
           (plt.Apply (plt.BuiltIn LessThanInteger)
              [plt.Apply
                 (plt.Lambda [STATEMONAD]
                    (plt.Apply (plt.Var STATEMONAD) [plt.ByteString "i"]))
                 [plt.Var STATEMONAD];
               plt.Apply (plt.Lambda [STATEMONAD] (plt.ByteString "ab"))
                 [plt.Var STATEMONAD]]))).
Proof.
  split; [ | split; [ | split]].
  - repeat (split; [reflexivity | ]).
    apply (proj1 compare_builtin_ignores_comparator BoolType
             (Constant ByteStringType (CBytes "ab")) (int_const 7) ast.Eq
             _ EqualsByteString _ _ eq_refl eq_refl eq_refl eq_refl).
  - split; [reflexivity | ].
    apply (proj1 (proj2 compare_builtin_ignores_comparator) BoolType
             (load StringType "t") (int_const 7) ast.Eq _ eq_refl eq_refl).
  - apply (proj1 (proj2 (proj2 compare_builtin_ignores_comparator))
             BoolType BoolType (load BoolType "p")
             (Constant BoolType (CBool true))
             (Constant ByteStringType (CBytes "ab")) (int_const 7) ast.Eq
             _ _ eq_refl eq_refl eq_refl).
  - apply (proj2 (proj2 (proj2 compare_builtin_ignores_comparator))
             BoolType BoolType (load IntegerType "i") (load IntegerType "i")
             (Constant ByteStringType (CBytes "ab"))
             (Constant ByteStringType (CBytes "ab")) ast.Lt
             _ _ eq_refl eq_refl eq_refl).
    reflexivity.
Defined.

(** ** More on the environment encoder *)

Lemma extend_statemonad_links (names : list string) (values : list plt.AST)
    (old : plt.AST) :
  extend_statemonad names values old =
  plt.Lambda ["x"]
    (fold_left link (combine names values) (plt.Apply old [plt.Var "x"])).
Proof. reflexivity. Qed.

(** Looking a name up evaluates the conditional chain with the chain's
    parameter [x] bound to the name. *)
Lemma lookup_enters_chain (fuel : nat) (rho : environment)
    (names : list string) (values : list plt.AST) (old : plt.AST)
    (name : string) :
  eval (S (S fuel)) rho (lookup_term (extend_statemonad names values old) name)
  = eval (S fuel) (("x", VByteString (encode name)) :: rho)
      (fold_left link (combine names values) (plt.Apply old [plt.Var "x"])).
Proof.
  rewrite extend_statemonad_links. unfold lookup_term.
  cbn [eval].
  cbn [eval_step apply_args andthen ret apply_value].
  rewrite !run_eta. reflexivity.
Qed.

Lemma link_hit (fuel : nat) (rho : environment) (acc v : plt.AST)
    (name : string) :
  eval (S (S (S fuel))) (("x", VByteString (encode name)) :: rho)
    (link acc (name, v))
  = eval (S (S fuel)) (("x", VByteString (encode name)) :: rho) v.
Proof.
  unfold link. cbn [eval fst snd].
  cbn [eval_step apply_args andthen ret apply_value lookup String.eqb
       Ascii.eqb Bool.eqb app length Nat.eqb arity run_builtin].
  rewrite String.eqb_refl. rewrite !run_eta. reflexivity.
Qed.

Lemma link_miss (fuel : nat) (rho : environment) (acc v : plt.AST)
    (id name : string) :
  id <> name ->
  eval (S (S (S fuel))) (("x", VByteString (encode name)) :: rho)
    (link acc (id, v))
  = eval (S (S fuel)) (("x", VByteString (encode name)) :: rho) acc.
Proof.
  intros Hne.
  assert (Hneq : String.eqb (encode name) (encode id) = false)
    by (apply String.eqb_neq; unfold encode; congruence).
  unfold link. cbn [eval fst snd].
  cbn [eval_step apply_args andthen ret apply_value lookup String.eqb
       Ascii.eqb Bool.eqb app length Nat.eqb arity run_builtin].
  rewrite Hneq. rewrite !run_eta. reflexivity.
Qed.

Lemma links_miss (rho : environment) (name : string)
    (pairs : list (string * plt.AST)) :
  Forall (fun nv => fst nv <> name) pairs ->
  forall (fuel : nat) (acc : plt.AST),
    eval (length pairs + S (S fuel)) (("x", VByteString (encode name)) :: rho)
      (fold_left link pairs acc)
    = eval (S (S fuel)) (("x", VByteString (encode name)) :: rho) acc.
Proof.
  induction 1 as [ | [id v] pairs Hid _ IH]; intros fuel acc.
  - reflexivity.
  - cbn [fold_left length].
    replace (S (length pairs) + S (S fuel))
      with (length pairs + S (S (S fuel))) by lia.
    rewrite IH. apply link_miss. exact Hid.
Qed.

Lemma combine_names_miss (name : string) (names : list string)
    (values : list plt.AST) :
  ~ In name names ->
  Forall (fun nv : string * plt.AST => fst nv <> name) (combine names values).
Proof.
  intros Hnot. apply Forall_forall. intros [id v] Hin Heq.
  apply Hnot. simpl in Heq. subst id.
  eapply in_combine_l. exact Hin.
Qed.

(** X1.  A name that an extension does not list is looked up in the old
    environment: the lookup is the old environment applied to the chain's
    parameter, which holds the name. *)
Theorem extend_unlisted_name_falls_through
    (fuel : nat) (rho : environment) (names : list string)
    (values : list plt.AST) (old : plt.AST) (name : string) :
  ~ In name names ->
  eval (length (combine names values) + (3 + fuel)) rho
    (lookup_term (extend_statemonad names values old) name)
  = eval (2 + fuel) (("x", VByteString (encode name)) :: rho)
      (plt.Apply old [plt.Var "x"]).
Proof.
  intros Hnot.
  replace (length (combine names values) + (3 + fuel))
    with (S (S (length (combine names values) + S fuel))) by lia.
  rewrite lookup_enters_chain.
  replace (S (length (combine names values) + S fuel))
    with (length (combine names values) + S (S fuel)) by lia.
  apply links_miss. apply combine_names_miss. exact Hnot.
Qed.

Lemma extend_unlisted_name_falls_through_witness :
  ~ In "z" ["a"; "b"] /\
  eval (length (combine ["a"; "b"] [plt.Integer 1; plt.Integer 2]) + (3 + 2))
    []
    (lookup_term
       (extend_statemonad ["a"; "b"] [plt.Integer 1; plt.Integer 2]
          (bound_to "z" 26 (plt.Lambda ["x"] plt.Error))) "z")
  = eval (2 + 2) [("x", VByteString (encode "z"))]
      (plt.Apply (bound_to "z" 26 (plt.Lambda ["x"] plt.Error))
         [plt.Var "x"]).
Proof.
  assert (Hnot : ~ In "z" ["a"; "b"]).
  { simpl. intros [H | [H | []]]; discriminate. }
  split; [exact Hnot | ].
  apply (extend_unlisted_name_falls_through 2 [] ["a"; "b"]
           [plt.Integer 1; plt.Integer 2]
           (bound_to "z" 26 (plt.Lambda ["x"] plt.Error)) "z" Hnot).
Defined.

Lemma combine_app_same_length {A B : Type} (l1 l2 : list A) (k1 k2 : list B) :
  length l1 = length k1 ->
  combine (l1 ++ l2) (k1 ++ k2) = combine l1 k1 ++ combine l2 k2.
Proof.
  revert k1. induction l1 as [ | a l1 IH]; intros [ | b k1] Hlen;
    try discriminate; simpl.
  - reflexivity.
  - rewrite IH by (simpl in Hlen; lia). reflexivity.
Qed.

(** X2.  The lookup of a listed name yields the value paired with its last
    occurrence: later pairs are tested first, and the pairs before the
    occurrence are never consulted. *)
Theorem extend_last_occurrence_wins
    (fuel : nat) (rho : environment) (names1 names2 : list string)
    (values1 values2 : list plt.AST) (old v : plt.AST) (name : string) :
  length names1 = length values1 ->
  ~ In name names2 ->
  eval (length (combine names2 values2) + (4 + fuel)) rho
    (lookup_term
       (extend_statemonad (names1 ++ name :: names2)
          (values1 ++ v :: values2) old) name)
  = eval (2 + fuel) (("x", VByteString (encode name)) :: rho) v.
Proof.
  intros Hlen Hnot.
  replace (length (combine names2 values2) + (4 + fuel))
    with (S (S (length (combine names2 values2) + S (S fuel)))) by lia.
  rewrite lookup_enters_chain.
  rewrite combine_app_same_length by exact Hlen.
  rewrite fold_left_app. cbn [combine fold_left].
  replace (S (length (combine names2 values2) + S (S fuel)))
    with (length (combine names2 values2) + S (S (S fuel))) by lia.
  rewrite links_miss by (apply combine_names_miss; exact Hnot).
  apply link_hit.
Qed.

Lemma extend_last_occurrence_wins_witness :
  length ["a"; "n"] = length [plt.Integer 1; plt.Integer 2] /\
  ~ In "n" ["b"] /\
  eval (length (combine ["b"] [plt.Integer 4]) + (4 + 0)) []
    (lookup_term
       (extend_statemonad (["a"; "n"] ++ "n" :: ["b"])
          ([plt.Integer 1; plt.Integer 2] ++ plt.Integer 3 :: [plt.Integer 4])
          (plt.Lambda ["x"] plt.Error)) "n")
  = eval (2 + 0) [("x", VByteString (encode "n"))] (plt.Integer 3).
Proof.
  assert (Hnot : ~ In "n" ["b"]).
  { simpl. intros [H | []]. discriminate. }
  split; [reflexivity | ].
  split; [exact Hnot | ].
  apply (extend_last_occurrence_wins 0 [] ["a"; "n"] ["b"]
           [plt.Integer 1; plt.Integer 2] [plt.Integer 4]
           (plt.Lambda ["x"] plt.Error) (plt.Integer 3) "n" eq_refl Hnot).
Defined.

Lemma combine_truncated {A B : Type} (l : list A) (k : list B) :
  combine (firstn (length k) l) (firstn (length l) k) = combine l k.
Proof.
  revert k. induction l as [ | a l IH]; intros [ | b k]; simpl;
    try reflexivity.
  rewrite IH. reflexivity.
Qed.

(** X3.  Names without a value and values without a name are dropped, as
    [zip] stops at the shorter list. *)
Theorem extend_statemonad_zip_truncates
    (names : list string) (values : list plt.AST) (old : plt.AST) :
  extend_statemonad names values old =
  extend_statemonad (firstn (length values) names)
    (firstn (length names) values) old.
Proof.
  unfold extend_statemonad. rewrite combine_truncated. reflexivity.
Qed.

(** ** More on sequences and calls *)

Lemma threaded_nests (node_seq : list stmt) (cs : list plt.AST) :
  Forall2 (fun n c => visit_stmt n = OK c) node_seq cs ->
  threaded node_seq =
  OK (fold_right (fun c inner => plt.Apply c [inner]) (plt.Var STATEMONAD) cs).
Proof.
  induction 1 as [ | n c node_seq cs Hn _ IH]; cbn [threaded fold_right].
  - reflexivity.
  - rewrite IH, Hn. reflexivity.
Qed.

(** X4.  When every statement lowers, the lowered sequence nests the
    statements' terms with the first statement outermost and the last
    innermost, next to the environment variable. *)
Theorem visit_sequence_nests_first_outermost
    (node_seq : list stmt) (cs : list plt.AST) :
  Forall2 (fun n c => visit_stmt n = OK c) node_seq cs ->
  visit_sequence node_seq =
  OK (plt.Lambda [STATEMONAD]
        (fold_right (fun c inner => plt.Apply c [inner])
           (plt.Var STATEMONAD) cs)).
Proof.
  intros H. rewrite visit_sequence_threaded, (threaded_nests _ _ H).
  reflexivity.
Qed.

Lemma visit_sequence_nests_first_outermost_witness :
  Forall2 (fun n c => visit_stmt n = OK c)
    [Pass; Pass; Pass]
    [plt.Lambda [STATEMONAD] (plt.Var STATEMONAD);
     plt.Lambda [STATEMONAD] (plt.Var STATEMONAD);
     plt.Lambda [STATEMONAD] (plt.Var STATEMONAD)] /\
  visit_sequence [Pass; Pass; Pass] =
  OK (plt.Lambda [STATEMONAD]
        (fold_right (fun c inner => plt.Apply c [inner])
           (plt.Var STATEMONAD)
           [plt.Lambda [STATEMONAD] (plt.Var STATEMONAD);
            plt.Lambda [STATEMONAD] (plt.Var STATEMONAD);
            plt.Lambda [STATEMONAD] (plt.Var STATEMONAD)])).
Proof.
  assert (H : Forall2 (fun n c => visit_stmt n = OK c)
                [Pass; Pass; Pass]
                [plt.Lambda [STATEMONAD] (plt.Var STATEMONAD);
                 plt.Lambda [STATEMONAD] (plt.Var STATEMONAD);
                 plt.Lambda [STATEMONAD] (plt.Var STATEMONAD)])
    by (repeat constructor).
  split; [exact H | ].
  apply (visit_sequence_nests_first_outermost _ _ H).
Defined.

Lemma threaded_raises_last (before after : list stmt) (n : stmt)
    (e : exception) (s : plt.AST) :
  threaded after = OK s ->
  visit_stmt n = Raise e ->
  threaded (before ++ n :: after) = Raise e.
Proof.
  intros Hafter Hn.
  induction before as [ | m before IH]; cbn [app threaded].
  - rewrite Hafter, Hn. reflexivity.
  - rewrite IH. reflexivity.
Qed.

(** X5.  The statements are visited last to first: when a statement fails to
    lower and the statements after it lower, the sequence raises that
    statement's error, whatever the statements before it do. *)
Theorem visit_sequence_raises_last_failure
    (before after : list stmt) (n : stmt) (e : exception)
    (cs : list plt.AST) :
  Forall2 (fun n c => visit_stmt n = OK c) after cs ->
  visit_stmt n = Raise e ->
  visit_sequence (before ++ n :: after) = Raise e.
Proof.
  intros Hafter Hn. rewrite visit_sequence_threaded.
  rewrite (threaded_raises_last before after n e _
             (threaded_nests _ _ Hafter) Hn).
  reflexivity.
Qed.

Lemma visit_sequence_raises_last_failure_witness :
  Forall2 (fun n c => visit_stmt n = OK c)
    [Pass] [plt.Lambda [STATEMONAD] (plt.Var STATEMONAD)] /\
  visit_stmt (Return None) =
    Raise (NotImplementedError ReturnNotLastStatement) /\
  visit_sequence ([OtherStmt "If"] ++ Return None :: [Pass]) =
    Raise (NotImplementedError ReturnNotLastStatement).
Proof.
  assert (H : Forall2 (fun n c => visit_stmt n = OK c)
                [Pass] [plt.Lambda [STATEMONAD] (plt.Var STATEMONAD)])
    by (repeat constructor).
  split; [exact H | ].
  split; [reflexivity | ].
  apply (visit_sequence_raises_last_failure [OtherStmt "If"] [Pass]
           (Return None) _ _ H eq_refl).
Defined.

Lemma visit_args_all (args : list expr) (xs : list plt.AST) :
  Forall2 (fun a x => visit_expr a = OK x) args xs ->
  visit_args args =
  OK (map (fun x => plt.Apply x [plt.Var STATEMONAD]) xs).
Proof.
  induction 1 as [ | a x args xs Ha _ IH]; cbn [visit_args map].
  - reflexivity.
  - rewrite Ha, IH. reflexivity.
Qed.

(** X6.  When callee and arguments lower, the lowered call applies the
    lowered callee to the lowered arguments in source order, each argument
    applied to the environment; a call without arguments is the lowered
    callee under an application to nothing. *)
Theorem visit_Call_all_arguments
    (typ : type) (func : expr) (args : list expr) (f : plt.AST)
    (xs : list plt.AST) :
  visit_expr func = OK f ->
  Forall2 (fun a x => visit_expr a = OK x) args xs ->
  visit_expr (Call typ func args) =
  OK (plt.Lambda [STATEMONAD]
        (plt.Apply f (map (fun x => plt.Apply x [plt.Var STATEMONAD]) xs))).
Proof.
  intros Hf Hargs. rewrite visit_Call_eq, Hf.
  cbn [bind]. rewrite (visit_args_all _ _ Hargs). reflexivity.
Qed.

Lemma visit_Call_all_arguments_witness :
  visit_expr (load UnitType "f") =
    OK (plt.Lambda [STATEMONAD]
          (plt.Apply (plt.Var STATEMONAD) [plt.ByteString "f"])) /\
  Forall2 (fun a x => visit_expr a = OK x)
    [int_const 1; int_const 2]
    [plt.Lambda [STATEMONAD] (plt.Integer 1);
     plt.Lambda [STATEMONAD] (plt.Integer 2)] /\
  visit_expr (Call UnitType (load UnitType "f") [int_const 1; int_const 2]) =
  OK (plt.Lambda [STATEMONAD]
        (plt.Apply
           (plt.Lambda [STATEMONAD]
              (plt.Apply (plt.Var STATEMONAD) [plt.ByteString "f"]))
           (map (fun x => plt.Apply x [plt.Var STATEMONAD])
              [plt.Lambda [STATEMONAD] (plt.Integer 1);
               plt.Lambda [STATEMONAD] (plt.Integer 2)]))).
Proof.
  assert (H : Forall2 (fun a x => visit_expr a = OK x)
                [int_const 1; int_const 2]
                [plt.Lambda [STATEMONAD] (plt.Integer 1);
                 plt.Lambda [STATEMONAD] (plt.Integer 2)])
    by (repeat constructor).
  split; [reflexivity | ].
  split; [exact H | ].
  apply (visit_Call_all_arguments UnitType (load UnitType "f") _ _ _
           eq_refl H).
Defined.

Lemma visit_args_raises_first (before after : list expr) (a : expr)
    (e : exception) (xs : list plt.AST) :
  Forall2 (fun a x => visit_expr a = OK x) before xs ->
  visit_expr a = Raise e ->
  visit_args (before ++ a :: after) = Raise e.
Proof.
  intros Hbefore Ha.
  induction Hbefore as [ | b x before xs Hb _ IH]; cbn [app visit_args].
  - rewrite Ha. reflexivity.
  - rewrite Hb, IH. reflexivity.
Qed.

(** X7.  Callee and arguments are visited in source order: a call raises the
    callee's error if the callee fails to lower, and otherwise the error of
    the first argument that fails to lower, whatever the arguments after it
    do. *)
Theorem visit_Call_raises_first_failure
    (typ : type) (func : expr) (before after : list expr) (a : expr)
    (e : exception) :
  (visit_expr func = Raise e ->
   visit_expr (Call typ func (before ++ a :: after)) = Raise e) /\
  (forall (f : plt.AST) (xs : list plt.AST),
     visit_expr func = OK f ->
     Forall2 (fun a x => visit_expr a = OK x) before xs ->
     visit_expr a = Raise e ->
     visit_expr (Call typ func (before ++ a :: after)) = Raise e).
Proof.
  split.
  - intros Hf. rewrite visit_Call_eq, Hf. reflexivity.
  - intros f xs Hf Hbefore Ha. rewrite visit_Call_eq, Hf.
    cbn [bind]. rewrite (visit_args_raises_first _ _ _ _ _ Hbefore Ha).
    reflexivity.
Qed.

Lemma visit_Call_raises_first_failure_witness :
  visit_expr (load UnitType "f") =
    OK (plt.Lambda [STATEMONAD]
          (plt.Apply (plt.Var STATEMONAD) [plt.ByteString "f"])) /\
  Forall2 (fun a x => visit_expr a = OK x)
    [int_const 1] [plt.Lambda [STATEMONAD] (plt.Integer 1)] /\
  visit_expr (Name IntegerType "y" Store) =
    Raise (NotImplementedError (ContextNotSupported Store)) /\
  visit_expr
    (Call UnitType (load UnitType "f")
       ([int_const 1] ++ Name IntegerType "y" Store
          :: [OtherExpr IntegerType "Tuple"])) =
    Raise (NotImplementedError (ContextNotSupported Store)).
Proof.
  assert (H : Forall2 (fun a x => visit_expr a = OK x)
                [int_const 1] [plt.Lambda [STATEMONAD] (plt.Integer 1)])
    by (repeat constructor).
  split; [reflexivity | ].
  split; [exact H | ].
  split; [reflexivity | ].
  apply (proj2 (visit_Call_raises_first_failure UnitType (load UnitType "f")
                  [int_const 1] [OtherExpr IntegerType "Tuple"]
                  (Name IntegerType "y" Store) _) _ _ eq_refl H eq_refl).
Defined.

(** ** More on comparisons and assignments *)

(** X8.  A comparison with more or fewer than one operator, or more or fewer
    than one comparator, fails an assertion before the table is consulted
    and before any operand is visited. *)
Theorem visit_Compare_chained_fails
    (typ : type) (left_ : expr) (ops : list ast.cmpop)
    (comparators : list expr) :
  length ops <> 1 \/ length comparators <> 1 ->
  visit_expr (Compare typ left_ ops comparators) =
  Raise (AssertionError "Only single comparisons are supported").
Proof.
  intros H.
  destruct ops as [ | op [ | op' ops]]; try reflexivity.
  destruct comparators as [ | c [ | c' comparators]]; try reflexivity.
  destruct H as [H | H]; simpl in H; contradiction.
Qed.

Lemma visit_Compare_chained_fails_witness :
  (length [ast.Lt; ast.Lt] <> 1 \/
   length [load IntegerType "b"; load IntegerType "c"] <> 1) /\
  visit_expr
    (Compare BoolType (load IntegerType "a") [ast.Lt; ast.Lt]
       [load IntegerType "b"; load IntegerType "c"]) =
  Raise (AssertionError "Only single comparisons are supported").
Proof.
  assert (H : length [ast.Lt; ast.Lt] <> 1 \/
              length [load IntegerType "b"; load IntegerType "c"] <> 1)
    by (left; simpl; discriminate).
  split; [exact H | ].
  apply (visit_Compare_chained_fails BoolType (load IntegerType "a")
           [ast.Lt; ast.Lt]
           [load IntegerType "b"; load IntegerType "c"] H).
Defined.

(** X9.  An assignment lowers exactly when it has one target, the target is
    a name, and the value lowers; the lowered assignment extends the
    incoming environment by that name, bound to the lowered value applied to
    the incoming environment. *)
Theorem visit_Assign_lowers_iff
    (targets : list expr) (value : expr) (t : plt.AST) :
  visit_stmt (Assign targets value) = OK t <->
  exists (typ : type) (id : string) (ctx : expr_context)
         (compiled_e : plt.AST),
    targets = [Name typ id ctx] /\
    visit_expr value = OK compiled_e /\
    t = plt.Lambda [STATEMONAD]
          (extend_statemonad [id]
             [plt.Apply compiled_e [plt.Var STATEMONAD]]
             (plt.Var STATEMONAD)).
Proof.
  split.
  - intros H. cbn [visit_stmt] in H.
    destruct targets as [ | target [ | target' targets]]; try discriminate.
    destruct target; try discriminate.
    destruct (visit_expr value) as [compiled_e | e] eqn:Hv; try discriminate.
    cbn [bind] in H. injection H as <-.
    eexists. eexists. eexists. eexists.
    split; [reflexivity | ]. split; reflexivity.
  - intros (typ & id & ctx & compiled_e & -> & Hv & ->).
    cbn [visit_stmt]. rewrite Hv. reflexivity.
Qed.

(** ** Reading a variable after an assignment *)

(** Unfolds the evaluator on the term at hand, resolving the lookups and the
    name tests that are decided. *)
Ltac run_eval :=
  repeat (cbn [eval_step apply_args eval_let andthen ret apply_value
               force_value lookup String.eqb Ascii.eqb Bool.eqb app length
               Nat.eqb arity run_builtin fst snd];
          rewrite ?run_eta, ?String.eqb_refl, ?app_nil_r).

(** X10.  Reading a name from the environment an assignment to that name
    returns runs the lowered right-hand side applied to the environment the
    assignment received.  The right-hand side is run at the time of the
    read, after the events of the environment term [e]. *)
Theorem read_after_assign
    (fuel : nat) (rho : environment) (typ typ' : type)
    (id : string) (ctx : expr_context) (rhs : expr) (c e : plt.AST)
    (events : list value) (ve : value) :
  visit_expr rhs = OK c ->
  eval (3 + fuel) rho e = (events, Value ve) ->
  exists a r : plt.AST,
    visit_stmt (Assign [Name typ id ctx] rhs) = OK a /\
    visit_expr (Name typ' id Load) = OK r /\
    eval (5 + fuel) rho (plt.Apply r [plt.Apply a [e]]) =
    (let (l, o) :=
       eval (2 + fuel)
         (("x", VByteString (encode id)) :: ("s", ve) :: rho)
         (plt.Apply c [plt.Var "s"]) in
     (events ++ l, o)).
Proof.
  intros Hc He.
  eexists. eexists.
  split; [cbn [visit_stmt]; rewrite Hc; reflexivity | ].
  split; [reflexivity | ].
  change (5 + fuel) with (S (S (S (S (S fuel))))).
  change (3 + fuel) with (S (S (S fuel))) in He.
  change (2 + fuel) with (S (S fuel)).
  unfold extend_statemonad, STATEMONAD. cbn [combine fold_left fst snd].
  cbn [eval] in He |- *.
  run_eval. rewrite He. run_eval. reflexivity.
Qed.

Lemma read_after_assign_witness :
  visit_expr (int_const 7) = OK (plt.Lambda [STATEMONAD] (plt.Integer 7)) /\
  eval (3 + 0) [] (plt.Lambda ["x"] plt.Error)
    = ([], Value (VLambda [] ["x"] plt.Error)) /\
  exists a r : plt.AST,
    visit_stmt (Assign [Name IntegerType "n" Store] (int_const 7)) = OK a /\
    visit_expr (Name IntegerType "n" Load) = OK r /\
    eval (5 + 0) [] (plt.Apply r [plt.Apply a [plt.Lambda ["x"] plt.Error]]) =
    (let (l, o) :=
       eval (2 + 0)
         [("x", VByteString (encode "n"));
          ("s", VLambda [] ["x"] plt.Error)]
         (plt.Apply (plt.Lambda [STATEMONAD] (plt.Integer 7)) [plt.Var "s"]) in
     ([] ++ l, o)).
Proof.
  split; [reflexivity | ].
  split; [reflexivity | ].
  apply (read_after_assign 0 [] IntegerType IntegerType "n" Store
           (int_const 7) (plt.Lambda [STATEMONAD] (plt.Integer 7))
           (plt.Lambda ["x"] plt.Error) [] (VLambda [] ["x"] plt.Error)
           eq_refl eq_refl).
Defined.

(** X11.  Reading any other name from the environment an assignment returns
    is the environment the assignment received, applied to that name: an
    assignment leaves the other bindings as they were. *)
Theorem read_other_name_after_assign
    (fuel : nat) (rho : environment) (typ typ' : type)
    (id name : string) (ctx : expr_context) (rhs : expr) (c e : plt.AST)
    (events : list value) (ve : value) :
  id <> name ->
  visit_expr rhs = OK c ->
  eval (3 + fuel) rho e = (events, Value ve) ->
  exists a r : plt.AST,
    visit_stmt (Assign [Name typ id ctx] rhs) = OK a /\
    visit_expr (Name typ' name Load) = OK r /\
    eval (5 + fuel) rho (plt.Apply r [plt.Apply a [e]]) =
    (let (l, o) :=
       apply_value (eval (1 + fuel)) ve (VByteString (encode name)) in
     (events ++ l, o)).
Proof.
  intros Hne Hc He.
  assert (Hneq : String.eqb (encode name) (encode id) = false)
    by (apply String.eqb_neq; unfold encode; congruence).
  eexists. eexists.
  split; [cbn [visit_stmt]; rewrite Hc; reflexivity | ].
  split; [reflexivity | ].
  change (5 + fuel) with (S (S (S (S (S fuel))))).
  change (3 + fuel) with (S (S (S fuel))) in He.
  change (1 + fuel) with (S fuel).
  unfold extend_statemonad, STATEMONAD. cbn [combine fold_left fst snd].
  cbn [eval] in He |- *.
  run_eval. rewrite He. run_eval. rewrite Hneq. run_eval. reflexivity.
Qed.

Lemma read_other_name_after_assign_witness :
  "n" <> "m" /\
  visit_expr (int_const 7) = OK (plt.Lambda [STATEMONAD] (plt.Integer 7)) /\
  eval (3 + 0) [] (plt.Lambda ["x"] plt.Error)
    = ([], Value (VLambda [] ["x"] plt.Error)) /\
  exists a r : plt.AST,
    visit_stmt (Assign [Name IntegerType "n" Store] (int_const 7)) = OK a /\
    visit_expr (Name IntegerType "m" Load) = OK r /\
    eval (5 + 0) [] (plt.Apply r [plt.Apply a [plt.Lambda ["x"] plt.Error]]) =
    (let (l, o) :=
       apply_value (eval (1 + 0)) (VLambda [] ["x"] plt.Error)
         (VByteString (encode "m")) in
     ([] ++ l, o)).
Proof.
  assert (Hne : "n" <> "m") by discriminate.
  split; [exact Hne | ].
  split; [reflexivity | ].
  split; [reflexivity | ].
  apply (read_other_name_after_assign 0 [] IntegerType IntegerType "n" "m"
           Store (int_const 7) (plt.Lambda [STATEMONAD] (plt.Integer 7))
           (plt.Lambda ["x"] plt.Error) [] (VLambda [] ["x"] plt.Error)
           Hne eq_refl eq_refl).
Defined.

(** ** More on loops *)

Lemma while_term_loop_step (compiled_c compiled_s : plt.AST) :
  while_term compiled_c compiled_s =
  plt.Lambda [STATEMONAD]
    (plt.Let
       [("g", plt.Lambda ["s"; "f"] (loop_step compiled_c compiled_s))]
       (plt.Apply (plt.Var "g") [plt.Var STATEMONAD; plt.Var "g"])).
Proof. reflexivity. Qed.

(** Entering the loop: the loop applied to the environment term [e] runs
    [loop_step] with [g] called on the value of [e]. *)
Lemma while_enters (fuel : nat) (rho : environment)
    (compiled_c compiled_s e : plt.AST) (events : list value)
    (entry : value) :
  eval (3 + fuel) rho e = (events, Value entry) ->
  eval (4 + fuel) rho (plt.Apply (while_term compiled_c compiled_s) [e]) =
  (let (l, o) :=
     eval (1 + fuel) (loop_frame rho entry compiled_c compiled_s entry)
       (loop_step compiled_c compiled_s) in
   (events ++ l, o)).
Proof.
  intros He.
  rewrite while_term_loop_step. unfold STATEMONAD.
  change (4 + fuel) with (S (S (S (S fuel)))).
  change (3 + fuel) with (S (S (S fuel))) in He.
  change (1 + fuel) with (S fuel).
  cbn [eval] in He |- *.
  run_eval. rewrite He. run_eval. reflexivity.
Qed.

(** X12.  When the lowered test is false for the environment [g] is called
    on, the loop step returns that environment, and the lowered body is not
    run. *)
Theorem while_test_false_returns_environment
    (fuel : nat) (rho : environment) (compiled_c compiled_s : plt.AST)
    (entry current : value) (events : list value) :
  eval fuel (loop_frame rho entry compiled_c compiled_s current)
    (plt.Apply compiled_c [plt.Var "s"])
  = (events, Value (VBool false)) ->
  eval (1 + fuel) (loop_frame rho entry compiled_c compiled_s current)
    (loop_step compiled_c compiled_s)
  = (events, Value current).
Proof.
  intros Hc.
  destruct fuel as [ | fuel]; [discriminate | ].
  change (1 + S fuel) with (S (S fuel)).
  unfold loop_step.
  change (eval (S (S fuel))) with (eval_step (eval (S fuel))).
  cbn [eval_step]. rewrite Hc. cbn [andthen].
  unfold loop_frame. cbn [eval]. run_eval. reflexivity.
Qed.

(** X13.  When the lowered test is true for the environment [g] is called
    on, the loop step is the loop step for the environment the lowered body
    returns, after the events of the test and of the body: one turn of the
    loop unrolls. *)
Theorem while_test_true_unrolls
    (fuel : nat) (rho : environment) (compiled_c compiled_s : plt.AST)
    (entry current next : value) (events_c events_s : list value) :
  eval (1 + fuel) (loop_frame rho entry compiled_c compiled_s current)
    (plt.Apply compiled_c [plt.Var "s"])
  = (events_c, Value (VBool true)) ->
  eval fuel (loop_frame rho entry compiled_c compiled_s current)
    (plt.Apply compiled_s [plt.Var "s"])
  = (events_s, Value next) ->
  eval (2 + fuel) (loop_frame rho entry compiled_c compiled_s current)
    (loop_step compiled_c compiled_s)
  = (let (l, o) :=
       eval fuel (loop_frame rho entry compiled_c compiled_s next)
         (loop_step compiled_c compiled_s) in
     (events_c ++ events_s ++ l, o)).
Proof.
  intros Hc Hs.
  destruct fuel as [ | fuel]; [discriminate | ].
  change (2 + S fuel) with (S (S (S fuel))).
  unfold loop_step.
  change (eval (S (S (S fuel)))) with (eval_step (eval (1 + S fuel))).
  cbn [eval_step]. rewrite Hc. cbn [andthen].
  change (eval (1 + S fuel)) with (eval_step (eval (S fuel))).
  cbn [eval_step apply_args]. rewrite Hs.
  assert (Hf : eval (S fuel)
                 (loop_frame rho entry compiled_c compiled_s current)
                 (plt.Var "f")
               = ret (loop_closure rho entry compiled_c compiled_s))
    by reflexivity.
  rewrite !Hf. unfold loop_closure at 1. run_eval.
  change (("f", loop_closure rho entry compiled_c compiled_s)
            :: ("s", next) :: ("s", entry) :: rho)
    with (loop_frame rho entry compiled_c compiled_s next).
  fold (loop_step compiled_c compiled_s).
  destruct (eval (S fuel) (loop_frame rho entry compiled_c compiled_s next)
              (loop_step compiled_c compiled_s)) as [l o].
  reflexivity.
Qed.

Lemma while_test_false_returns_environment_witness :
  eval 3
    (loop_frame [] (VLambda [] ["x"] (plt.Integer 3))
       (plt.Lambda ["s"] (plt.Bool false)) (plt.Lambda ["s"] plt.Error)
       (VLambda [] ["x"] (plt.Integer 3)))
    (plt.Apply (plt.Lambda ["s"] (plt.Bool false)) [plt.Var "s"])
  = ([], Value (VBool false)) /\
  eval (1 + 3)
    (loop_frame [] (VLambda [] ["x"] (plt.Integer 3))
       (plt.Lambda ["s"] (plt.Bool false)) (plt.Lambda ["s"] plt.Error)
       (VLambda [] ["x"] (plt.Integer 3)))
    (loop_step (plt.Lambda ["s"] (plt.Bool false))
       (plt.Lambda ["s"] plt.Error))
  = ([], Value (VLambda [] ["x"] (plt.Integer 3))).
Proof.
  split; [reflexivity | ].
  apply (while_test_false_returns_environment 3 []
           (plt.Lambda ["s"] (plt.Bool false)) (plt.Lambda ["s"] plt.Error)
           (VLambda [] ["x"] (plt.Integer 3))
           (VLambda [] ["x"] (plt.Integer 3)) []).
  reflexivity.
Defined.

Lemma while_test_true_unrolls_witness :
  eval (1 + 3)
    (loop_frame [] VUnit (plt.Lambda ["s"] (plt.Var "s"))
       (plt.Lambda ["s"] (plt.Bool false)) (VBool true))
    (plt.Apply (plt.Lambda ["s"] (plt.Var "s")) [plt.Var "s"])
  = ([], Value (VBool true)) /\
  eval 3
    (loop_frame [] VUnit (plt.Lambda ["s"] (plt.Var "s"))
       (plt.Lambda ["s"] (plt.Bool false)) (VBool true))
    (plt.Apply (plt.Lambda ["s"] (plt.Bool false)) [plt.Var "s"])
  = ([], Value (VBool false)) /\
  eval (2 + 3)
    (loop_frame [] VUnit (plt.Lambda ["s"] (plt.Var "s"))
       (plt.Lambda ["s"] (plt.Bool false)) (VBool true))
    (loop_step (plt.Lambda ["s"] (plt.Var "s"))
       (plt.Lambda ["s"] (plt.Bool false)))
  = (let (l, o) :=
       eval 3
         (loop_frame [] VUnit (plt.Lambda ["s"] (plt.Var "s"))
            (plt.Lambda ["s"] (plt.Bool false)) (VBool false))
         (loop_step (plt.Lambda ["s"] (plt.Var "s"))
            (plt.Lambda ["s"] (plt.Bool false))) in
     ([] ++ [] ++ l, o)).
Proof.
  split; [reflexivity | ].
  split; [reflexivity | ].
  apply (while_test_true_unrolls 3 [] (plt.Lambda ["s"] (plt.Var "s"))
           (plt.Lambda ["s"] (plt.Bool false)) VUnit (VBool true)
           (VBool false) [] []);
    reflexivity.
Defined.


(** X14.  A loop without an else-branch whose test and body lower applies,
    on the environment term [e], the function [g] to the value of [e] and to
    itself: the run is the events of [e] followed by the run of the loop
    step on that value. *)
Theorem visit_While_runs_loop_step
    (fuel : nat) (rho : environment) (test : expr) (body : list stmt)
    (compiled_c compiled_s e : plt.AST) (events : list value)
    (entry : value) :
  visit_expr test = OK compiled_c ->
  visit_sequence body = OK compiled_s ->
  eval (3 + fuel) rho e = (events, Value entry) ->
  exists loop : plt.AST,
    visit_stmt (While test body []) = OK loop /\
    eval (4 + fuel) rho (plt.Apply loop [e]) =
    (let (l, o) :=
       eval (1 + fuel) (loop_frame rho entry compiled_c compiled_s entry)
         (loop_step compiled_c compiled_s) in
     (events ++ l, o)).
Proof.
  intros Hc Hs He.
  rewrite visit_sequence_threaded in Hs.
  destruct (threaded body) as [s | err] eqn:Hbody; [ | discriminate].
  cbn [bind] in Hs. injection Hs as <-.
  exists (while_term compiled_c (plt.Lambda [STATEMONAD] s)).
  split.
  - change (visit_stmt (While test body [])) with
      (c <- visit_expr test ;;
       s' <- threaded body ;;
       OK (while_term c (plt.Lambda [STATEMONAD] s'))).
    rewrite Hc, Hbody. reflexivity.
  - apply while_enters. exact He.
Qed.

Lemma visit_While_runs_loop_step_witness :
  visit_expr i_lt_3 =
    OK (plt.Lambda [STATEMONAD]
          (plt.Apply (plt.BuiltIn LessThanInteger)
             [plt.Apply
                (plt.Lambda [STATEMONAD]
                   (plt.Apply (plt.Var STATEMONAD) [plt.ByteString "i"]))
                [plt.Var STATEMONAD];
              plt.Apply (plt.Lambda [STATEMONAD] (plt.Integer 3))
                [plt.Var STATEMONAD]])) /\
  visit_sequence [Pass] =
    OK (plt.Lambda [STATEMONAD]
          (plt.Apply (plt.Lambda [STATEMONAD] (plt.Var STATEMONAD))
             [plt.Var STATEMONAD])) /\
  eval (3 + 0) [] (plt.Lambda ["x"] (plt.Integer 5))
    = ([], Value (VLambda [] ["x"] (plt.Integer 5))) /\
  exists loop : plt.AST,
    visit_stmt (While i_lt_3 [Pass] []) = OK loop /\
    eval (4 + 0) [] (plt.Apply loop [plt.Lambda ["x"] (plt.Integer 5)]) =
    (let (l, o) :=
       eval (1 + 0)
         (loop_frame [] (VLambda [] ["x"] (plt.Integer 5))
            (plt.Lambda [STATEMONAD]
               (plt.Apply (plt.BuiltIn LessThanInteger)
                  [plt.Apply
                     (plt.Lambda [STATEMONAD]
                        (plt.Apply (plt.Var STATEMONAD)
                           [plt.ByteString "i"]))
                     [plt.Var STATEMONAD];
                   plt.Apply (plt.Lambda [STATEMONAD] (plt.Integer 3))
                     [plt.Var STATEMONAD]]))
            (plt.Lambda [STATEMONAD]
               (plt.Apply (plt.Lambda [STATEMONAD] (plt.Var STATEMONAD))
                  [plt.Var STATEMONAD]))
            (VLambda [] ["x"] (plt.Integer 5)))
         (loop_step
            (plt.Lambda [STATEMONAD]
               (plt.Apply (plt.BuiltIn LessThanInteger)
                  [plt.Apply
                     (plt.Lambda [STATEMONAD]
                        (plt.Apply (plt.Var STATEMONAD)
                           [plt.ByteString "i"]))
                     [plt.Var STATEMONAD];
                   plt.Apply (plt.Lambda [STATEMONAD] (plt.Integer 3))
                     [plt.Var STATEMONAD]]))
            (plt.Lambda [STATEMONAD]
               (plt.Apply (plt.Lambda [STATEMONAD] (plt.Var STATEMONAD))
                  [plt.Var STATEMONAD]))) in
     ([] ++ l, o)).
Proof.
  split; [reflexivity | ].
  split; [reflexivity | ].
  split; [reflexivity | ].
  apply (visit_While_runs_loop_step 0 [] i_lt_3 [Pass] _ _
           (plt.Lambda ["x"] (plt.Integer 5)) []
           (VLambda [] ["x"] (plt.Integer 5)) eq_refl eq_refl eq_refl).
Defined.

(** X15.  A loop with an else-branch whose parts all lower is the sequence of
    the loop without its else-branch and the else-statements: the lowered
    loop is applied to the else-statements' terms, nested first outermost
    around the environment variable. *)
Theorem visit_While_else_is_sequence
    (test : expr) (body : list stmt) (o : stmt) (orelse : list stmt)
    (compiled_c compiled_s : plt.AST) (cs : list plt.AST) :
  visit_expr test = OK compiled_c ->
  visit_sequence body = OK compiled_s ->
  Forall2 (fun n c => visit_stmt n = OK c) (o :: orelse) cs ->
  visit_stmt (While test body (o :: orelse)) =
    visit_sequence (While test body [] :: o :: orelse) /\
  visit_stmt (While test body (o :: orelse)) =
    OK (plt.Lambda [STATEMONAD]
          (plt.Apply (while_term compiled_c compiled_s)
             [fold_right (fun c inner => plt.Apply c [inner])
                (plt.Var STATEMONAD) cs])).
Proof.
  intros Hc Hs Helse.
  assert (Hloop : visit_stmt (While test body []) =
                  OK (while_term compiled_c compiled_s)).
  { rewrite visit_sequence_threaded in Hs.
    destruct (threaded body) as [s | err] eqn:Hbody; [ | discriminate].
    cbn [bind] in Hs. injection Hs as <-.
    change (visit_stmt (While test body [])) with
      (c <- visit_expr test ;;
       s' <- threaded body ;;
       OK (while_term c (plt.Lambda [STATEMONAD] s'))).
    rewrite Hc, Hbody. reflexivity. }
  assert (Hseq : visit_sequence (While test body [] :: o :: orelse) =
                 OK (plt.Lambda [STATEMONAD]
                       (plt.Apply (while_term compiled_c compiled_s)
                          [fold_right (fun c inner => plt.Apply c [inner])
                             (plt.Var STATEMONAD) cs]))).
  { rewrite visit_sequence_threaded.
    rewrite (threaded_nests (While test body [] :: o :: orelse)
               (while_term compiled_c compiled_s :: cs))
      by (constructor; assumption).
    reflexivity. }
  rewrite visit_While_orelse, Hc, Hs. cbn [bind].
  split; [reflexivity | exact Hseq].
Qed.

Lemma visit_While_else_is_sequence_witness :
  visit_expr i_lt_3 =
    OK (plt.Lambda [STATEMONAD]
          (plt.Apply (plt.BuiltIn LessThanInteger)
             [plt.Apply
                (plt.Lambda [STATEMONAD]
                   (plt.Apply (plt.Var STATEMONAD) [plt.ByteString "i"]))
                [plt.Var STATEMONAD];
              plt.Apply (plt.Lambda [STATEMONAD] (plt.Integer 3))
                [plt.Var STATEMONAD]])) /\
  visit_sequence [] = OK (plt.Lambda [STATEMONAD] (plt.Var STATEMONAD)) /\
  Forall2 (fun n c => visit_stmt n = OK c)
    [Pass] [plt.Lambda [STATEMONAD] (plt.Var STATEMONAD)] /\
  visit_stmt (While i_lt_3 [] [Pass]) =
    visit_sequence [While i_lt_3 [] []; Pass].
Proof.
  assert (H : Forall2 (fun n c => visit_stmt n = OK c)
                [Pass] [plt.Lambda [STATEMONAD] (plt.Var STATEMONAD)])
    by (repeat constructor).
  split; [reflexivity | ].
  split; [reflexivity | ].
  split; [exact H | ].
  apply (proj1 (visit_While_else_is_sequence i_lt_3 [] Pass [] _ _ _
                  eq_refl eq_refl H)).
Defined.

(** ** What the lowered operations compute *)

(** The built-ins of the two tables take no type argument: they apply
    without being forced. *)
Lemma BinOpMap_never_Trace (op : ast.operator) (typ : type)
    (b : BuiltInFun) (opmap : type -> option BuiltInFun) :
  BinOpMap op = Some opmap ->
  opmap typ = Some b ->
  b <> Trace.
Proof.
  intros Hop Htyp.
  destruct op; simpl in Hop; try discriminate;
    injection Hop as <-; destruct typ; try discriminate;
    injection Htyp as <-; discriminate.
Qed.

Lemma CmpMap_never_Trace (op : ast.cmpop) (typ : type)
    (b : BuiltInFun) (opmap : type -> option BuiltInFun) :
  CmpMap op = Some opmap ->
  opmap typ = Some b ->
  b <> Trace.
Proof.
  intros Hop Htyp.
  destruct op; simpl in Hop; try discriminate;
    injection Hop as <-; destruct typ; try discriminate;
    injection Htyp as <-; discriminate.
Qed.

(** The run of a lowered operation [\s -> builtin (l s) (r s)] on the
    environment term [e]: the events of [e], of the left operand and of the
    right operand, in this order, then the built-in on the two values. *)
Lemma lowered_operation_runs
    (fuel : nat) (rho : environment) (b : BuiltInFun) (l r e : plt.AST)
    (events events_l events_r : list value) (ve va vb : value) :
  b <> Trace ->
  eval (1 + fuel) rho e = (events, Value ve) ->
  eval fuel (("s", ve) :: rho) (plt.Apply l [plt.Var "s"])
    = (events_l, Value va) ->
  eval fuel (("s", ve) :: rho) (plt.Apply r [plt.Var "s"])
    = (events_r, Value vb) ->
  eval (2 + fuel) rho
    (plt.Apply
       (plt.Lambda [STATEMONAD]
          (plt.Apply (plt.BuiltIn b)
             [plt.Apply l [plt.Var STATEMONAD];
              plt.Apply r [plt.Var STATEMONAD]]))
       [e])
  = (let (events_b, o) := run_builtin b [va; vb] in
     (events ++ events_l ++ events_r ++ events_b, o)).
Proof.
  intros Hb He Hl Hr.
  destruct fuel as [ | fuel]; [discriminate | ].
  unfold STATEMONAD.
  change (2 + S fuel) with (S (S (S fuel))).
  change (eval (S (S (S fuel)))) with (eval_step (eval (1 + S fuel))).
  cbn [eval_step apply_args]. rewrite He.
  change (eval (1 + S fuel) rho (plt.Lambda ["s"]
            (plt.Apply (plt.BuiltIn b)
               [plt.Apply l [plt.Var "s"]; plt.Apply r [plt.Var "s"]])))
    with (ret (VLambda rho ["s"]
            (plt.Apply (plt.BuiltIn b)
               [plt.Apply l [plt.Var "s"]; plt.Apply r [plt.Var "s"]]))).
  cbn [andthen ret apply_value].
  change (eval (1 + S fuel)) with (eval_step (eval (S fuel))).
  cbn [eval_step apply_args]. rewrite Hl, Hr.
  change (eval (S fuel) (("s", ve) :: rho) (plt.BuiltIn b))
    with (ret (VBuiltIn b [])).
  destruct b; try congruence;
    cbn [andthen ret apply_value app length Nat.eqb arity];
    match goal with
    | |- context [run_builtin ?b [va; vb]] =>
        destruct (run_builtin b [va; vb]) as [events_b o]
    end;
    rewrite ?app_nil_r; reflexivity.
Qed.

(** X16.  A lowered [BinOp] whose pair is in the table, applied to an
    environment, runs the left operand, then the right operand, each on that
    environment, and returns what the table's built-in makes of the two
    values. *)
Theorem visit_BinOp_computes_builtin
    (fuel : nat) (rho : environment) (typ : type) (left_ right_ : expr)
    (op : ast.operator) (opmap : type -> option BuiltInFun) (b : BuiltInFun)
    (l r e : plt.AST) (events events_l events_r : list value)
    (ve va vb : value) :
  BinOpMap op = Some opmap ->
  opmap typ = Some b ->
  visit_expr left_ = OK l ->
  visit_expr right_ = OK r ->
  eval (1 + fuel) rho e = (events, Value ve) ->
  eval fuel (("s", ve) :: rho) (plt.Apply l [plt.Var "s"])
    = (events_l, Value va) ->
  eval fuel (("s", ve) :: rho) (plt.Apply r [plt.Var "s"])
    = (events_r, Value vb) ->
  exists t : plt.AST,
    visit_expr (BinOp typ left_ op right_) = OK t /\
    eval (2 + fuel) rho (plt.Apply t [e])
    = (let (events_b, o) := run_builtin b [va; vb] in
       (events ++ events_l ++ events_r ++ events_b, o)).
Proof.
  intros Hop Htyp Hleft Hright He Hl Hr.
  eexists. split.
  - cbn [visit_expr]. rewrite Hop, Htyp, Hleft, Hright. reflexivity.
  - apply (lowered_operation_runs _ _ _ _ _ _ _ _ _ _ _ _
             (BinOpMap_never_Trace _ _ _ _ Hop Htyp) He Hl Hr).
Qed.

Lemma visit_BinOp_computes_builtin_witness :
  BinOpMap ast.Sub =
    Some (fun typ =>
            match typ with IntegerType => Some SubtractInteger | _ => None end)
  /\
  (fun typ =>
     match typ with IntegerType => Some SubtractInteger | _ => None end)
    IntegerType = Some SubtractInteger /\
  visit_expr (int_const 9) = OK (plt.Lambda [STATEMONAD] (plt.Integer 9)) /\
  visit_expr (int_const 4) = OK (plt.Lambda [STATEMONAD] (plt.Integer 4)) /\
  eval (1 + 2) [] (plt.Lambda ["x"] plt.Error)
    = ([], Value (VLambda [] ["x"] plt.Error)) /\
  eval 2 [("s", VLambda [] ["x"] plt.Error)]
    (plt.Apply (plt.Lambda [STATEMONAD] (plt.Integer 9)) [plt.Var "s"])
    = ([], Value (VInteger 9)) /\
  eval 2 [("s", VLambda [] ["x"] plt.Error)]
    (plt.Apply (plt.Lambda [STATEMONAD] (plt.Integer 4)) [plt.Var "s"])
    = ([], Value (VInteger 4)) /\
  exists t : plt.AST,
    visit_expr (BinOp IntegerType (int_const 9) ast.Sub (int_const 4)) = OK t
    /\
    eval (2 + 2) [] (plt.Apply t [plt.Lambda ["x"] plt.Error])
    = (let (events_b, o) :=
         run_builtin SubtractInteger [VInteger 9; VInteger 4] in
       ([] ++ [] ++ [] ++ events_b, o)).
Proof.
  repeat (split; [reflexivity | ]).
  apply (visit_BinOp_computes_builtin 2 [] IntegerType (int_const 9)
           (int_const 4) ast.Sub _ SubtractInteger _ _
           (plt.Lambda ["x"] plt.Error) [] [] []
           (VLambda [] ["x"] plt.Error) (VInteger 9) (VInteger 4)
           eq_refl eq_refl eq_refl eq_refl eq_refl eq_refl eq_refl).
Defined.

(** X17.  A lowered single-operator [Compare] whose pair is in the table,
    applied to an environment, runs the left operand, then the comparator,
    each on that environment, and returns what the table's built-in makes of
    the two values. *)
Theorem visit_Compare_computes_builtin
    (fuel : nat) (rho : environment) (typ : type) (left_ comparator : expr)
    (op : ast.cmpop) (opmap : type -> option BuiltInFun) (b : BuiltInFun)
    (l r e : plt.AST) (events events_l events_r : list value)
    (ve va vb : value) :
  CmpMap op = Some opmap ->
  opmap (typ_of left_) = Some b ->
  visit_expr left_ = OK l ->
  visit_expr comparator = OK r ->
  eval (1 + fuel) rho e = (events, Value ve) ->
  eval fuel (("s", ve) :: rho) (plt.Apply l [plt.Var "s"])
    = (events_l, Value va) ->
  eval fuel (("s", ve) :: rho) (plt.Apply r [plt.Var "s"])
    = (events_r, Value vb) ->
  exists t : plt.AST,
    visit_expr (Compare typ left_ [op] [comparator]) = OK t /\
    eval (2 + fuel) rho (plt.Apply t [e])
    = (let (events_b, o) := run_builtin b [va; vb] in
       (events ++ events_l ++ events_r ++ events_b, o)).
Proof.
  intros Hop Htyp Hleft Hright He Hl Hr.
  eexists. split.
  - cbn [visit_expr]. rewrite Hop, Htyp, Hleft, Hright. reflexivity.
  - apply (lowered_operation_runs _ _ _ _ _ _ _ _ _ _ _ _
             (CmpMap_never_Trace _ _ _ _ Hop Htyp) He Hl Hr).
Qed.

Lemma visit_Compare_computes_builtin_witness :
  CmpMap ast.Lt =
    Some (fun typ =>
            match typ with IntegerType => Some LessThanInteger | _ => None end)
  /\
  (fun typ =>
     match typ with IntegerType => Some LessThanInteger | _ => None end)
    (typ_of (int_const 9)) = Some LessThanInteger /\
  visit_expr (int_const 9) = OK (plt.Lambda [STATEMONAD] (plt.Integer 9)) /\
  visit_expr (int_const 4) = OK (plt.Lambda [STATEMONAD] (plt.Integer 4)) /\
  eval (1 + 2) [] (plt.Lambda ["x"] plt.Error)
    = ([], Value (VLambda [] ["x"] plt.Error)) /\
  eval 2 [("s", VLambda [] ["x"] plt.Error)]
    (plt.Apply (plt.Lambda [STATEMONAD] (plt.Integer 9)) [plt.Var "s"])
    = ([], Value (VInteger 9)) /\
  eval 2 [("s", VLambda [] ["x"] plt.Error)]
    (plt.Apply (plt.Lambda [STATEMONAD] (plt.Integer 4)) [plt.Var "s"])
    = ([], Value (VInteger 4)) /\
  exists t : plt.AST,
    visit_expr (Compare BoolType (int_const 9) [ast.Lt] [int_const 4]) = OK t
    /\
    eval (2 + 2) [] (plt.Apply t [plt.Lambda ["x"] plt.Error])
    = (let (events_b, o) :=
         run_builtin LessThanInteger [VInteger 9; VInteger 4] in
       ([] ++ [] ++ [] ++ events_b, o)).
Proof.
  repeat (split; [reflexivity | ]).
  apply (visit_Compare_computes_builtin 2 [] BoolType (int_const 9)
           (int_const 4) ast.Lt _ LessThanInteger _ _
           (plt.Lambda ["x"] plt.Error) [] [] []
           (VLambda [] ["x"] plt.Error) (VInteger 9) (VInteger 4)
           eq_refl eq_refl eq_refl eq_refl eq_refl eq_refl eq_refl).
Defined.

(** X18.  A lowered constant that is a str, a bytes, an int or a bool,
    applied to an environment, returns the constant's value and does not
    consult the environment: the only events are those of the environment
    term.  The constant [None] does not lower: its entry of the table is
    called with the value and takes no argument. *)
Theorem visit_Constant_ignores_environment :
  (forall (fuel : nat) (rho : environment) (typ : type) (c : constant)
          (literal e : plt.AST) (events : list value) (ve : value),
     ConstantMap c = Some (OK literal) ->
     eval (1 + fuel) rho e = (events, Value ve) ->
     exists t : plt.AST,
       visit_expr (Constant typ c) = OK t /\
       eval (2 + fuel) rho (plt.Apply t [e])
       = (events, Value (constant_value c))) /\
  (forall c : constant,
     (exists literal, ConstantMap c = Some (OK literal)) <->
     match c with
     | CStr _ | CBytes _ | CInt _ | CBool _ => True
     | CNone | COther _ _ => False
     end) /\
  (forall typ : type, visit_expr (Constant typ CNone) = Raise TypeError).
Proof.
  split; [ | split ].
  - intros fuel rho typ c literal e events ve Hmap He.
    eexists. split.
    + cbn [visit_expr]. rewrite Hmap. reflexivity.
    + change (2 + fuel) with (S (S fuel)).
      change (eval (S (S fuel))) with (eval_step (eval (1 + fuel))).
      cbn [eval_step apply_args]. rewrite He.
      change (1 + fuel) with (S fuel).
      destruct c; simpl in Hmap; try discriminate;
        injection Hmap as <-; cbn; rewrite ?app_nil_r; reflexivity.
  - intros c. split.
    + intros [literal Hmap]. destruct c; simpl in Hmap; try discriminate;
        exact I.
    + destruct c; intros []; eexists; reflexivity.
  - intros typ. reflexivity.
Qed.

Lemma visit_Constant_ignores_environment_witness :
  ConstantMap (CBool true) = Some (OK (plt.Bool true)) /\
  eval (1 + 0) [] (plt.Lambda ["x"] plt.Error)
    = ([], Value (VLambda [] ["x"] plt.Error)) /\
  exists t : plt.AST,
    visit_expr (Constant BoolType (CBool true)) = OK t /\
    eval (2 + 0) [] (plt.Apply t [plt.Lambda ["x"] plt.Error])
    = ([], Value (constant_value (CBool true))).
Proof.
  split; [reflexivity | ].
  split; [reflexivity | ].
  apply (proj1 visit_Constant_ignores_environment 0 [] BoolType (CBool true)
           (plt.Bool true) (plt.Lambda ["x"] plt.Error) []
           (VLambda [] ["x"] plt.Error) eq_refl eq_refl).
Defined.

(** ** The built-in [range] *)

(** X19.  [range], applied to an environment and a limit, is a pair: the
    start 0 and a step function.  The step function applied to a state [k]
    is a triple: whether [k] is below the limit, [k] itself, and [k + 1].
    The environment is not consulted. *)
Theorem range_start_and_step
    (extra : nat) (rho : environment) (ve : value) (limit k : Z) :
  eval (extra + 20) (("env", ve) :: rho)
    (emulate_nth
       (plt.Apply (PythonBuiltIn.value PythonBuiltIn.range)
          [plt.Var "env"; plt.Integer limit]) 0 2)
  = ([], Value (VInteger 0)) /\
  eval (extra + 20) (("env", ve) :: rho)
    (emulate_nth
       (plt.Apply
          (emulate_nth
             (plt.Apply (PythonBuiltIn.value PythonBuiltIn.range)
                [plt.Var "env"; plt.Integer limit]) 1 2)
          [plt.Integer k]) 0 3)
  = ([], Value (VBool (Z.ltb k limit))) /\
  eval (extra + 20) (("env", ve) :: rho)
    (emulate_nth
       (plt.Apply
          (emulate_nth
             (plt.Apply (PythonBuiltIn.value PythonBuiltIn.range)
                [plt.Var "env"; plt.Integer limit]) 1 2)
          [plt.Integer k]) 1 3)
  = ([], Value (VInteger k)) /\
  eval (extra + 20) (("env", ve) :: rho)
    (emulate_nth
       (plt.Apply
          (emulate_nth
             (plt.Apply (PythonBuiltIn.value PythonBuiltIn.range)
                [plt.Var "env"; plt.Integer limit]) 1 2)
          [plt.Integer k]) 2 3)
  = ([], Value (VInteger (k + 1))).
Proof.
  repeat split; enough_fuel.
Qed.

(** ** Function definitions *)

Lemma with_return_nonempty (body : list stmt) : with_return body <> [].
Proof.
  unfold with_return. destruct body as [ | n body]; [discriminate | ].
  destruct (is_Return (last (n :: body) Pass)); discriminate.
Qed.

Lemma last_app_nonempty {A : Type} (l1 l2 : list A) (d : A) :
  l2 <> [] -> last (l1 ++ l2) d = last l2 d.
Proof.
  intros Hne. induction l1 as [ | a l1 IH]; [reflexivity | ].
  cbn [app]. destruct (l1 ++ l2) eqn:E.
  - apply app_eq_nil in E. destruct E. contradiction.
  - rewrite <- IH. reflexivity.
Qed.

Lemma with_return_app (l1 l2 : list stmt) :
  l2 <> [] -> with_return (l1 ++ l2) = l1 ++ with_return l2.
Proof.
  intros Hne. unfold with_return.
  rewrite (last_app_nonempty l1 l2 Pass Hne).
  destruct (is_Return (last l2 Pass)); [reflexivity | ].
  rewrite app_assoc. reflexivity.
Qed.

(** X20.  A [Return] that is not the last statement of a function body makes
    the function definition fail to lower, provided the statements after it
    lower (a final [Return] is not visited as a statement). *)
Theorem visit_FunctionDef_return_not_last
    (name : string) (args : list string) (before after : list stmt)
    (v : option expr) (n : stmt) (cs : list plt.AST) :
  Forall2 (fun m c => visit_stmt m = OK c)
    (removelast (with_return (n :: after))) cs ->
  visit_stmt (FunctionDef name args (before ++ Return v :: n :: after)) =
  Raise (NotImplementedError ReturnNotLastStatement).
Proof.
  intros Hafter.
  assert (Hbody : visit_sequence
                    (removelast
                       (with_return (before ++ Return v :: n :: after)))
                  = Raise (NotImplementedError ReturnNotLastStatement)).
  { change (before ++ Return v :: n :: after)
      with (before ++ [Return v] ++ n :: after).
    rewrite app_assoc.
    rewrite with_return_app by discriminate.
    rewrite removelast_app by apply with_return_nonempty.
    rewrite <- app_assoc. cbn [app].
    rewrite visit_sequence_threaded.
    rewrite (threaded_raises_last before _ (Return v)
               (NotImplementedError ReturnNotLastStatement) _
               (threaded_nests _ _ Hafter) eq_refl).
    reflexivity. }
  destruct before as [ | m before]; cbn [app] in Hbody |- *;
    rewrite visit_FunctionDef_eq, Hbody; reflexivity.
Qed.

Lemma visit_FunctionDef_return_not_last_witness :
  Forall2 (fun m c => visit_stmt m = OK c)
    (removelast (with_return [Pass; Return None]))
    [plt.Lambda [STATEMONAD] (plt.Var STATEMONAD)] /\
  visit_stmt
    (FunctionDef "f" ["a"] ([Pass] ++ Return None :: Pass :: [Return None])) =
  Raise (NotImplementedError ReturnNotLastStatement).
Proof.
  assert (H : Forall2 (fun m c => visit_stmt m = OK c)
                (removelast (with_return [Pass; Return None]))
                [plt.Lambda [STATEMONAD] (plt.Var STATEMONAD)])
    by (repeat constructor).
  split; [exact H | ].
  apply (visit_FunctionDef_return_not_last "f" ["a"] [Pass] [Return None]
           None Pass _ H).
Defined.

(** X21.  A function body that does not end in a [Return] lowers as the same
    body with [return None] appended. *)
Theorem visit_FunctionDef_implicit_return
    (name : string) (args : list string) (n : stmt) (body : list stmt) :
  is_Return (last (n :: body) Pass) = false ->
  visit_stmt (FunctionDef name args (n :: body)) =
  visit_stmt (FunctionDef name args ((n :: body) ++ [Return None])).
Proof.
  intros Hlast.
  assert (Hlast' : last ((n :: body) ++ [Return None]) Pass = Return None)
    by (apply last_last).
  change ((n :: body) ++ [Return None]) with (n :: (body ++ [Return None]))
    in Hlast' |- *.
  rewrite !visit_FunctionDef_eq.
  unfold with_return, final_value.
  rewrite Hlast, Hlast'. cbn [is_Return].
  destruct (last (n :: body) Pass); try discriminate; reflexivity.
Qed.

Lemma visit_FunctionDef_implicit_return_witness :
  is_Return (last [i_plus_1; Pass] Pass) = false /\
  visit_stmt (FunctionDef "f" ["i"] [i_plus_1; Pass]) =
  visit_stmt (FunctionDef "f" ["i"] ([i_plus_1; Pass] ++ [Return None])).
Proof.
  split; [reflexivity | ].
  apply (visit_FunctionDef_implicit_return "f" ["i"] i_plus_1 [Pass] eq_refl).
Defined.

(** X22.  A function whose body is statements that lower followed by a
    [Return] whose value lowers is, given an environment and then its
    parameters, the lowered return value applied to the lowered statements
    applied to the environment extended by the parameters; the statements
    nest first outermost, and the names [p0], [p1], ... stand for the
    arguments. *)
Theorem visit_FunctionDef_explicit_return
    (name : string) (args : list string) (init : list stmt)
    (v : option expr) (cs : list plt.AST) (compiled_return : plt.AST) :
  Forall2 (fun m c => visit_stmt m = OK c) init cs ->
  visit_optional v = OK compiled_return ->
  visit_stmt (FunctionDef name args (init ++ [Return v])) =
  OK (plt.Lambda [STATEMONAD]
        (plt.Lambda
           (map (fun i => String.append "p" (str_of_nat i))
              (seq 0 (length args)))
           (plt.Apply compiled_return
              [plt.Apply
                 (plt.Lambda [STATEMONAD]
                    (fold_right (fun c inner => plt.Apply c [inner])
                       (plt.Var STATEMONAD) cs))
                 [extend_statemonad args
                    (map plt.Var
                       (map (fun i => String.append "p" (str_of_nat i))
                          (seq 0 (length args))))
                    (plt.Var STATEMONAD)]]))).
Proof.
  intros Hinit Hv.
  assert (Hlast : last (init ++ [Return v]) Pass = Return v)
    by (apply last_last).
  assert (Hwith : with_return (init ++ [Return v]) = init ++ [Return v])
    by (unfold with_return; rewrite Hlast; reflexivity).
  assert (Hfinal : final_value (init ++ [Return v]) = v)
    by (unfold final_value; rewrite Hlast; reflexivity).
  destruct (init ++ [Return v]) as [ | m body] eqn:Hbody.
  - destruct init; discriminate.
  - rewrite visit_FunctionDef_eq, Hwith, Hfinal, <- Hbody.
    rewrite removelast_last, visit_sequence_threaded.
    rewrite (threaded_nests _ _ Hinit), Hv. reflexivity.
Qed.

Lemma visit_FunctionDef_explicit_return_witness :
  Forall2 (fun m c => visit_stmt m = OK c)
    [Pass] [plt.Lambda [STATEMONAD] (plt.Var STATEMONAD)] /\
  visit_optional (Some (load IntegerType "a")) =
    OK (plt.Lambda [STATEMONAD]
          (plt.Apply (plt.Var STATEMONAD) [plt.ByteString "a"])) /\
  visit_stmt
    (FunctionDef "f" ["a"] ([Pass] ++ [Return (Some (load IntegerType "a"))]))
  = OK (plt.Lambda [STATEMONAD]
          (plt.Lambda
             (map (fun i => String.append "p" (str_of_nat i))
                (seq 0 (length ["a"])))
             (plt.Apply
                (plt.Lambda [STATEMONAD]
                   (plt.Apply (plt.Var STATEMONAD) [plt.ByteString "a"]))
                [plt.Apply
                   (plt.Lambda [STATEMONAD]
                      (fold_right (fun c inner => plt.Apply c [inner])
                         (plt.Var STATEMONAD)
                         [plt.Lambda [STATEMONAD] (plt.Var STATEMONAD)]))
                   [extend_statemonad ["a"]
                      (map plt.Var
                         (map (fun i => String.append "p" (str_of_nat i))
                            (seq 0 (length ["a"]))))
                      (plt.Var STATEMONAD)]]))).
Proof.
  assert (H : Forall2 (fun m c => visit_stmt m = OK c)
                [Pass] [plt.Lambda [STATEMONAD] (plt.Var STATEMONAD)])
    by (repeat constructor).
  split; [exact H | ].
  split; [reflexivity | ].
  apply (visit_FunctionDef_explicit_return "f" ["a"] [Pass]
           (Some (load IntegerType "a")) _ _ H eq_refl).
Defined.

(** ** Emulated tuples of any size *)

Lemma to_lu_of_nat (n : nat) :
  DecimalPos.Unsigned.to_lu (N.of_nat n) = DecimalNat.Unsigned.to_lu n.
Proof.
  induction n as [ | n IH].
  - reflexivity.
  - rewrite Nat2N.inj_succ, DecimalPos.Unsigned.to_lu_succ, IH. reflexivity.
Qed.

(** An index interpolates to the same text whether it is taken as a Python
    integer or as a position in [range(size)]. *)
Lemma str_of_Z_of_nat (n : nat) : str_of_Z (Z.of_nat n) = str_of_nat n.
Proof.
  unfold str_of_Z, str_of_nat.
  rewrite DecimalNat.Unsigned.to_uint_alt, <- to_lu_of_nat.
  destruct n as [ | n]; [reflexivity | ].
  reflexivity.
Qed.

Lemma to_int_nonnil (n : Z) :
  Z.to_int n <> Decimal.Pos Decimal.Nil /\
  Z.to_int n <> Decimal.Neg Decimal.Nil.
Proof.
  destruct n as [ | p | p]; simpl; split; try discriminate;
    intros H; injection H as H;
    exact (DecimalPos.Unsigned.to_uint_nonnil p H).
Qed.

Lemma str_of_Z_inj (n m : Z) : str_of_Z n = str_of_Z m -> n = m.
Proof.
  unfold str_of_Z. intros H.
  apply DecimalZ.to_int_inj.
  assert (Hn := NilZero.isi (Z.to_int n) (proj1 (to_int_nonnil n))
                  (proj2 (to_int_nonnil n))).
  assert (Hm := NilZero.isi (Z.to_int m) (proj1 (to_int_nonnil m))
                  (proj2 (to_int_nonnil m))).
  rewrite H in Hn. rewrite Hn in Hm. injection Hm as Hm. exact Hm.
Qed.

Lemma lookup_app_hit (k : string) (v : value) (l1 l2 : environment) :
  NoDup (map fst l1) ->
  In (k, v) l1 ->
  lookup k (l1 ++ l2) = Some v.
Proof.
  induction l1 as [ | [k' v'] l1 IH]; intros Hnodup Hin; [contradiction | ].
  cbn [app lookup]. inversion Hnodup as [ | ? ? Hnotin Hnodup']; subst.
  destruct (String.eqb_spec k k') as [-> | Hne].
  - destruct Hin as [Heq | Hin].
    + injection Heq as <-. reflexivity.
    + exfalso. apply Hnotin. apply (in_map fst) in Hin. exact Hin.
  - destruct Hin as [Heq | Hin].
    + injection Heq as <- <-. contradiction.
    + apply IH; assumption.
Qed.

Lemma lookup_app_miss (k : string) (l1 l2 : environment) :
  ~ In k (map fst l1) ->
  lookup k (l1 ++ l2) = lookup k l2.
Proof.
  induction l1 as [ | [k' v'] l1 IH]; intros Hnotin; [reflexivity | ].
  cbn [app lookup].
  destruct (String.eqb_spec k k') as [-> | Hne].
  - exfalso. apply Hnotin. left. reflexivity.
  - apply IH. intros Hin. apply Hnotin. right. exact Hin.
Qed.

Lemma map_fst_combine {A B : Type} (l : list A) (k : list B) :
  length l = length k -> map fst (combine l k) = l.
Proof.
  revert k. induction l as [ | a l IH]; intros [ | b k] Hlen;
    try discriminate; simpl.
  - reflexivity.
  - rewrite IH by (simpl in Hlen; lia). reflexivity.
Qed.

(** Applying a closure over [names] to as many arguments binds the names in
    order and then runs the body. *)
Lemma apply_args_binds (ev : environment -> plt.AST -> run)
    (rho' : environment) (body : plt.AST) (xs : list plt.AST)
    (rs : list (list value * value)) :
  Forall2 (fun x r => ev rho' x = (fst r, Value (snd r))) xs rs ->
  forall (names : list string) (env : environment) (l : list value),
    length names = length xs ->
    xs <> [] ->
    apply_args ev rho' (l, Value (VLambda env names body)) xs =
    (let (l', o) := ev (rev (combine names (map snd rs)) ++ env) body in
     (l ++ concat (map fst rs) ++ l', o)).
Proof.
  induction 1 as [ | x r xs rs Hx Hxs IH]; intros names env l Hlen Hne;
    [contradiction | ].
  destruct names as [ | v names]; [discriminate | ].
  cbn [apply_args andthen]. rewrite Hx. cbn [andthen].
  destruct xs as [ | x' xs].
  - inversion Hxs; subst.
    destruct names; [ | discriminate].
    cbn [apply_value apply_args map combine rev app concat fst snd].
    destruct (ev ((v, snd r) :: env) body) as [l' o].
    rewrite app_nil_r. reflexivity.
  - destruct names as [ | v' names]; [discriminate | ].
    cbn [apply_value ret]. rewrite app_nil_r.
    rewrite IH by (simpl in Hlen |- *; try lia; discriminate).
    cbn [map combine rev concat].
    rewrite <- !app_assoc. cbn [app].
    destruct (ev _ body) as [l' o].
    rewrite <- !app_assoc. reflexivity.
Qed.

Lemma tuple_params_nodup (size : nat) :
  NoDup (map (fun i => String.append "v" (str_of_nat i)) (seq 0 size)).
Proof.
  apply Finite.Injective_map_NoDup; [ | apply seq_NoDup].
  intros i j H. injection H as H.
  rewrite <- !str_of_Z_of_nat in H. apply str_of_Z_inj in H.
  apply Nat2Z.inj. exact H.
Qed.

Lemma tuple_param_listed (n : Z) (size : nat) :
  In (String.append "v" (str_of_Z n))
    (map (fun i => String.append "v" (str_of_nat i)) (seq 0 size)) ->
  (0 <= n < Z.of_nat size)%Z.
Proof.
  intros Hin. apply in_map_iff in Hin. destruct Hin as (i & Heq & Hi).
  injection Heq as Heq. rewrite <- str_of_Z_of_nat in Heq.
  apply str_of_Z_inj in Heq. apply in_seq in Hi. lia.
Qed.

(** The run of a projection, whatever the index: every element is run in
    order, then the projected variable is looked up among the parameters
    bound to the elements' values, on top of the outer bindings. *)
Lemma projection_runs (fuel : nat) (rho : environment) (xs : list plt.AST)
    (rs : list (list value * value)) (n : Z) :
  xs <> [] ->
  Forall2
    (fun x r =>
       eval (S fuel) (("f", projection rho n (length xs)) :: rho) x
       = (fst r, Value (snd r)))
    xs rs ->
  eval (3 + fuel) rho (emulate_nth (emulate_tuple xs) n (length xs))
  = (concat (map fst rs),
     match
       lookup (String.append "v" (str_of_Z n))
         (rev
            (combine
               (map (fun i => String.append "v" (str_of_nat i))
                  (seq 0 (length xs)))
               (map snd rs)) ++ rho)
     with
     | Some v => Value v
     | None => Stuck
     end).
Proof.
  intros Hne Hruns.
  unfold emulate_nth, emulate_tuple.
  change (3 + fuel) with (S (S (S fuel))).
  change (eval (S (S (S fuel)))) with (eval_step (eval (S (S fuel)))).
  cbn [eval_step apply_args].
  assert (Hsize : map (fun i => String.append "v" (str_of_nat i))
                    (seq 0 (length xs)) <> []).
  { destruct xs; [contradiction | discriminate]. }
  destruct (map (fun i => String.append "v" (str_of_nat i))
              (seq 0 (length xs))) as [ | v0 vs] eqn:Hnames;
    [contradiction | ].
  change (eval (S (S fuel))) with (eval_step (eval (S fuel))) at 1 2.
  cbn [eval_step andthen ret apply_value app].
  change (eval (S (S fuel))) with (eval_step (eval (S fuel))).
  cbn [eval_step apply_args].
  rewrite <- Hnames.
  change (VLambda rho
            (map (fun i => String.append "v" (str_of_nat i))
               (seq 0 (length xs)))
            (plt.Var (String.append "v" (str_of_Z n))))
    with (projection rho n (length xs)).
  change (eval (S fuel) (("f", projection rho n (length xs)) :: rho)
            (plt.Var "f"))
    with (@nil value, Value (projection rho n (length xs))).
  unfold projection at 2.
  rewrite (apply_args_binds (eval (S fuel)) _ _ xs rs Hruns)
    by (rewrite ?length_map, ?length_seq; try reflexivity; exact Hne).
  rewrite !run_eta.
  cbn [eval eval_step].
  destruct (lookup _ _); cbn [ret app]; rewrite ?app_nil_r; reflexivity.
Qed.

(** X23.  For a tuple of any size and every position [i] below the size,
    projecting [i] runs every element in order and returns the value of the
    [i]-th element. *)
Theorem emulated_tuple_projection_any_size
    (fuel : nat) (rho : environment) (xs : list plt.AST)
    (rs : list (list value * value)) (i : nat) :
  i < length xs ->
  Forall2
    (fun x r =>
       eval (S fuel)
         (("f", projection rho (Z.of_nat i) (length xs)) :: rho) x
       = (fst r, Value (snd r)))
    xs rs ->
  eval (3 + fuel) rho
    (emulate_nth (emulate_tuple xs) (Z.of_nat i) (length xs))
  = (concat (map fst rs), Value (nth i (map snd rs) VUnit)).
Proof.
  intros Hi Hruns.
  assert (Hne : xs <> []) by (destruct xs; [simpl in Hi; lia | discriminate]).
  assert (Hlen : length xs = length rs) by (eapply Forall2_length; eassumption).
  rewrite (projection_runs fuel rho xs rs (Z.of_nat i) Hne Hruns).
  set (names := map (fun i => String.append "v" (str_of_nat i))
                  (seq 0 (length xs))).
  assert (Hnames : length names = length (map snd rs))
    by (unfold names; rewrite !length_map, length_seq; exact Hlen).
  rewrite (lookup_app_hit (String.append "v" (str_of_Z (Z.of_nat i)))
             (nth i (map snd rs) VUnit)).
  - reflexivity.
  - rewrite map_rev, (map_fst_combine _ _ Hnames).
    apply NoDup_rev. apply tuple_params_nodup.
  - apply -> in_rev.
    assert (Hnth : nth i (combine names (map snd rs)) ("", VUnit)
                   = (String.append "v" (str_of_Z (Z.of_nat i)),
                      nth i (map snd rs) VUnit)).
    { rewrite combine_nth by exact Hnames. f_equal.
      unfold names.
      rewrite (nth_indep _ "" (String.append "v" (str_of_nat 0)))
        by (rewrite length_map, length_seq; exact Hi).
      etransitivity;
        [apply (map_nth (fun i => String.append "v" (str_of_nat i))) | ].
      rewrite seq_nth by exact Hi.
      rewrite str_of_Z_of_nat. reflexivity. }
    rewrite <- Hnth. apply nth_In.
    rewrite length_combine, <- Hnames. unfold names.
    rewrite length_map, length_seq. lia.
Qed.

Lemma emulated_tuple_projection_any_size_witness :
  3 < length [plt.Integer 5; plt.Integer 6; plt.Integer 7; plt.Integer 8] /\
  Forall2
    (fun x r =>
       eval (S 0)
         [("f", projection [] (Z.of_nat 3)
                  (length
                     [plt.Integer 5; plt.Integer 6; plt.Integer 7;
                      plt.Integer 8]))] x
       = (fst r, Value (snd r)))
    [plt.Integer 5; plt.Integer 6; plt.Integer 7; plt.Integer 8]
    [(@nil value, VInteger 5); (@nil value, VInteger 6);
     (@nil value, VInteger 7); (@nil value, VInteger 8)] /\
  eval (3 + 0) []
    (emulate_nth
       (emulate_tuple
          [plt.Integer 5; plt.Integer 6; plt.Integer 7; plt.Integer 8])
       (Z.of_nat 3)
       (length [plt.Integer 5; plt.Integer 6; plt.Integer 7; plt.Integer 8]))
  = (concat
       (map fst
          [(@nil value, VInteger 5); (@nil value, VInteger 6);
           (@nil value, VInteger 7); (@nil value, VInteger 8)]),
     Value
       (nth 3
          (map snd
             [(@nil value, VInteger 5); (@nil value, VInteger 6);
              (@nil value, VInteger 7); (@nil value, VInteger 8)])
          VUnit)).
Proof.
  assert (Hi : 3 < length [plt.Integer 5; plt.Integer 6; plt.Integer 7;
                           plt.Integer 8]) by (simpl; lia).
  assert (H : Forall2
                (fun x r =>
                   eval (S 0)
                     [("f", projection [] (Z.of_nat 3)
                              (length
                                 [plt.Integer 5; plt.Integer 6;
                                  plt.Integer 7; plt.Integer 8]))] x
                   = (fst r, Value (snd r)))
                [plt.Integer 5; plt.Integer 6; plt.Integer 7; plt.Integer 8]
                [(@nil value, VInteger 5); (@nil value, VInteger 6);
                 (@nil value, VInteger 7); (@nil value, VInteger 8)])
    by (repeat constructor).
  split; [exact Hi | ].
  split; [exact H | ].
  apply (emulated_tuple_projection_any_size 0 [] _ _ 3 Hi H).
Defined.

(** X24.  An index outside the tuple is not rejected: every element is still
    run, and the projected variable, which is none of the parameters, is
    taken from the bindings around the projection; the run is stuck when
    they do not bind it. *)
Theorem emulated_tuple_projection_out_of_range
    (fuel : nat) (rho : environment) (xs : list plt.AST)
    (rs : list (list value * value)) (n : Z) :
  xs <> [] ->
  (n < 0 \/ Z.of_nat (length xs) <= n)%Z ->
  Forall2
    (fun x r =>
       eval (S fuel) (("f", projection rho n (length xs)) :: rho) x
       = (fst r, Value (snd r)))
    xs rs ->
  eval (3 + fuel) rho (emulate_nth (emulate_tuple xs) n (length xs))
  = (concat (map fst rs),
     match lookup (String.append "v" (str_of_Z n)) rho with
     | Some v => Value v
     | None => Stuck
     end).
Proof.
  intros Hne Hout Hruns.
  assert (Hlen : length xs = length rs) by (eapply Forall2_length; eassumption).
  rewrite (projection_runs fuel rho xs rs n Hne Hruns).
  rewrite lookup_app_miss; [reflexivity | ].
  rewrite map_rev, map_fst_combine
    by (rewrite !length_map, length_seq; exact Hlen).
  intros Hin. apply in_rev in Hin. apply tuple_param_listed in Hin. lia.
Qed.

Lemma emulated_tuple_projection_out_of_range_witness :
  [plt.Integer 5; plt.Integer 6] <> [] /\
  (2 < 0 \/ Z.of_nat (length [plt.Integer 5; plt.Integer 6]) <= 2)%Z /\
  Forall2
    (fun x r =>
       eval (S 0)
         [("f", projection [] 2 (length [plt.Integer 5; plt.Integer 6]))] x
       = (fst r, Value (snd r)))
    [plt.Integer 5; plt.Integer 6]
    [(@nil value, VInteger 5); (@nil value, VInteger 6)] /\
  eval (3 + 0) []
    (emulate_nth (emulate_tuple [plt.Integer 5; plt.Integer 6]) 2
       (length [plt.Integer 5; plt.Integer 6]))
  = (concat
       (map fst [(@nil value, VInteger 5); (@nil value, VInteger 6)]),
     match lookup (String.append "v" (str_of_Z 2)) [] with
     | Some v => Value v
     | None => Stuck
     end).
Proof.
  assert (Hne : [plt.Integer 5; plt.Integer 6] <> []) by discriminate.
  assert (Hout : (2 < 0 \/
                  Z.of_nat (length [plt.Integer 5; plt.Integer 6]) <= 2)%Z)
    by (right; simpl; lia).
  assert (H : Forall2
                (fun x r =>
                   eval (S 0)
                     [("f", projection [] 2
                              (length [plt.Integer 5; plt.Integer 6]))] x
                   = (fst r, Value (snd r)))
                [plt.Integer 5; plt.Integer 6]
                [(@nil value, VInteger 5); (@nil value, VInteger 6)])
    by (repeat constructor).
  split; [exact Hne | ].
  split; [exact Hout | ].
  split; [exact H | ].
  apply (emulated_tuple_projection_out_of_range 0 [] _ _ 2 Hne Hout H).
Defined.

(** ** Lowered terms are closed *)

Lemma AST_nested_ind (P : plt.AST -> Prop) :
  (forall name, P (plt.Var name)) ->
  (forall vars term, P term -> P (plt.Lambda vars term)) ->
  (forall f xs, P f -> Forall P xs -> P (plt.Apply f xs)) ->
  (forall i t e, P i -> P t -> P e -> P (plt.Ite i t e)) ->
  (forall bindings term,
     Forall (fun xb => P (snd xb)) bindings -> P term ->
     P (plt.Let bindings term)) ->
  (forall b, P (plt.BuiltIn b)) ->
  (forall x, P (plt.Integer x)) ->
  (forall x, P (plt.ByteString x)) ->
  (forall x, P (plt.Text x)) ->
  (forall x, P (plt.Bool x)) ->
  P plt.Unit ->
  (forall x, P x -> P (plt.Force x)) ->
  (forall x, P x -> P (plt.Delay x)) ->
  P plt.Error ->
  forall t, P t.
Proof.
  intros HVar HLambda HApply HIte HLet HBuiltIn HInteger HByteString HText
         HBool HUnit HForce HDelay HError.
  fix IH 1. intros [name | vars term | f xs | i t e | bindings term | b | x
                    | x | x | x | | x | x | ].
  - apply HVar.
  - apply HLambda. apply IH.
  - apply HApply; [apply IH | ].
    induction xs as [ | x xs IHxs]; constructor; [apply IH | exact IHxs].
  - apply HIte; apply IH.
  - apply HLet; [ | apply IH].
    induction bindings as [ | [x b] bindings IHbs]; constructor;
      [apply IH | exact IHbs].
  - apply HBuiltIn.
  - apply HInteger.
  - apply HByteString.
  - apply HText.
  - apply HBool.
  - apply HUnit.
  - apply HForce. apply IH.
  - apply HDelay. apply IH.
  - apply HError.
Qed.

Lemma existsb_eqb_In (x : string) (l : list string) :
  existsb (String.eqb x) l = true <-> In x l.
Proof.
  rewrite existsb_exists. split.
  - intros (y & Hin & Heq). apply String.eqb_eq in Heq. subst. exact Hin.
  - intros Hin. exists x. split; [exact Hin | apply String.eqb_refl].
Qed.

(** More bound names keep a term closed. *)
Lemma closed_under_incl (t : plt.AST) :
  forall bound bound' : list string,
    incl bound bound' ->
    closed_under bound t = true ->
    closed_under bound' t = true.
Proof.
  induction t using AST_nested_ind; intros bound bound' Hincl Hclosed;
    cbn [closed_under] in Hclosed |- *; try reflexivity.
  - apply existsb_eqb_In. apply Hincl. apply existsb_eqb_In. exact Hclosed.
  - apply (IHt (vars ++ bound)); [ | exact Hclosed].
    apply incl_app; [apply incl_appl, incl_refl | apply incl_appr, Hincl].
  - apply andb_true_iff in Hclosed. destruct Hclosed as [Hf Hxs].
    apply andb_true_iff. split; [apply (IHt bound); assumption | ].
    apply forallb_forall. intros x Hin.
    rewrite Forall_forall in H. rewrite forallb_forall in Hxs.
    apply (H x Hin bound); [exact Hincl | apply Hxs; exact Hin].
  - apply andb_true_iff in Hclosed. destruct Hclosed as [Hit He].
    apply andb_true_iff in Hit. destruct Hit as [Hi Ht].
    rewrite (IHt1 bound), (IHt2 bound), (IHt3 bound); auto.
  - revert bound bound' Hincl Hclosed.
    induction H as [ | [x b] bindings Hb _ IHbs];
      intros bound bound' Hincl Hclosed.
    + apply (IHt bound); assumption.
    + apply andb_true_iff in Hclosed. destruct Hclosed as [Hb' Hrest].
      apply andb_true_iff. split.
      * apply (Hb bound); assumption.
      * apply (IHbs (x :: bound)); [ | exact Hrest].
        intros y [-> | Hy]; [left; reflexivity | right; apply Hincl, Hy].
  - apply (IHt bound); assumption.
  - apply (IHt bound); assumption.
Qed.

Lemma closed_anywhere (t : plt.AST) (bound : list string) :
  closed_under [] t = true -> closed_under bound t = true.
Proof.
  apply closed_under_incl. intros x [].
Qed.

Lemma expr_nested_ind (P : expr -> Prop) :
  (forall typ left_ op right_,
     P left_ -> P right_ -> P (BinOp typ left_ op right_)) ->
  (forall typ left_ ops comparators,
     P left_ -> Forall P comparators ->
     P (Compare typ left_ ops comparators)) ->
  (forall typ func args,
     P func -> Forall P args -> P (Call typ func args)) ->
  (forall typ value, P (Constant typ value)) ->
  (forall typ id ctx, P (Name typ id ctx)) ->
  (forall typ value slice, P value -> P (Subscript typ value slice)) ->
  (forall typ kind, P (OtherExpr typ kind)) ->
  forall node, P node.
Proof.
  intros HBinOp HCompare HCall HConstant HName HSubscript HOther.
  fix IH 1. intros [typ l op r | typ l ops cs | typ f args | typ value
                    | typ id ctx | typ value slice | typ kind].
  - apply HBinOp; apply IH.
  - apply HCompare; [apply IH | ].
    induction cs as [ | c cs IHcs]; constructor; [apply IH | exact IHcs].
  - apply HCall; [apply IH | ].
    induction args as [ | a args IHargs]; constructor;
      [apply IH | exact IHargs].
  - apply HConstant.
  - apply HName.
  - apply HSubscript. apply IH.
  - apply HOther.
Qed.

Lemma links_closed (bound : list string) (pairs : list (string * plt.AST)) :
  In "x" bound ->
  Forall (fun nv => closed_under bound (snd nv) = true) pairs ->
  forall acc : plt.AST,
    closed_under bound acc = true ->
    closed_under bound (fold_left link pairs acc) = true.
Proof.
  intros Hx. induction 1 as [ | [n v] pairs Hv _ IH]; intros acc Hacc.
  - exact Hacc.
  - cbn [fold_left]. apply IH. unfold link. cbn [closed_under forallb fst snd].
    rewrite (proj2 (existsb_eqb_In "x" bound) Hx).
    simpl in Hv. rewrite Hv, Hacc. reflexivity.
Qed.

Lemma extend_statemonad_closed (bound : list string) (names : list string)
    (values : list plt.AST) (old : plt.AST) :
  closed_under ("x" :: bound) old = true ->
  Forall (fun v => closed_under ("x" :: bound) v = true) values ->
  closed_under bound (extend_statemonad names values old) = true.
Proof.
  intros Hold Hvalues.
  rewrite extend_statemonad_links. cbn [closed_under app].
  apply links_closed.
  - left. reflexivity.
  - apply Forall_forall. intros [n v] Hin.
    rewrite Forall_forall in Hvalues. apply Hvalues.
    eapply in_combine_r. exact Hin.
  - cbn [closed_under forallb]. rewrite Hold.
    cbn [existsb]. rewrite String.eqb_refl. reflexivity.
Qed.

(** The projection's variable is one of the continuation's parameters
    when the text of the index is the decimal of a position. *)
Lemma tuple_param_named (text : string) (size : nat) :
  existsb (String.eqb text) (map str_of_nat (seq 0 size)) = true ->
  In (String.append "v" text)
    (map (fun i => String.append "v" (str_of_nat i)) (seq 0 size)).
Proof.
  intros Htext. apply existsb_exists in Htext.
  destruct Htext as (d & Hd & Heq). apply String.eqb_eq in Heq. subst d.
  apply in_map_iff in Hd. destruct Hd as (i & <- & Hi).
  apply in_map_iff. exists i. split; [reflexivity | exact Hi].
Qed.

(** At an integer index, [emulate_nth_at] is [emulate_nth]. *)
Lemma emulate_nth_at_integer (t : plt.AST) (n : Z) (size : nat) :
  emulate_nth_at t (CInt n) size = emulate_nth t n size.
Proof. reflexivity. Qed.

(** Whether the projection's variable is one of the continuation's
    parameters. *)
Lemma tuple_param_bound (text : string) (positions : list nat) :
  existsb (String.eqb (String.append "v" text))
    (map (fun i => String.append "v" (str_of_nat i)) positions)
  = existsb (String.eqb text) (map str_of_nat positions).
Proof.
  induction positions as [ | i positions IH]; [reflexivity | ].
  cbn [map existsb]. rewrite IH. reflexivity.
Qed.

(** The condition [indices_in_range] puts on a constant index. *)
Lemma index_names_position (n : constant) (size : nat) :
  match n with
  | CInt z => Z.leb 0 z && Z.ltb z (Z.of_nat size)
  | _ => existsb (String.eqb (py_str n)) (map str_of_nat (seq 0 size))
  end = true ->
  existsb (String.eqb (py_str n)) (map str_of_nat (seq 0 size)) = true.
Proof.
  destruct n as [ | | z | | | ]; try (intros H; exact H).
  intros Hz. apply andb_true_iff in Hz. destruct Hz as [Hlo Hhi].
  apply Z.leb_le in Hlo. apply Z.ltb_lt in Hhi.
  apply existsb_exists. exists (str_of_nat (Z.to_nat z)). split.
  - apply in_map. apply in_seq. lia.
  - apply String.eqb_eq. cbn [py_str].
    rewrite <- str_of_Z_of_nat, Z2Nat.id by lia. reflexivity.
Qed.

Lemma visit_args_closed (args : list expr) :
  Forall
    (fun a =>
       forall t, indices_in_range a = true -> visit_expr a = OK t ->
                 closed_under [] t = true) args ->
  forallb indices_in_range args = true ->
  forall xs, visit_args args = OK xs ->
  forallb (closed_under [STATEMONAD]) xs = true.
Proof.
  induction 1 as [ | a args Ha _ IH]; intros Hrange xs Hxs;
    cbn [visit_args] in Hxs.
  - injection Hxs as <-. reflexivity.
  - cbn [forallb] in Hrange. apply andb_true_iff in Hrange.
    destruct Hrange as [Hra Hrargs].
    destruct (visit_expr a) as [x | ] eqn:Hx; [ | discriminate].
    cbn [bind] in Hxs.
    destruct (visit_args args) as [xs' | ]; [ | discriminate].
    cbn [bind] in Hxs. injection Hxs as <-.
    cbn [forallb closed_under]. rewrite (IH Hrargs xs' eq_refl).
    rewrite (closed_anywhere x _ (Ha x Hra eq_refl)).
    reflexivity.
Qed.

(** The closedness of the term of an operation from that of its operands. *)
Lemma operation_closed (b : BuiltInFun) (l r : plt.AST) :
  closed_under [] l = true ->
  closed_under [] r = true ->
  closed_under []
    (plt.Lambda [STATEMONAD]
       (plt.Apply (plt.BuiltIn b)
          [plt.Apply l [plt.Var STATEMONAD];
           plt.Apply r [plt.Var STATEMONAD]])) = true.
Proof.
  intros Hl Hr. cbn [closed_under forallb app].
  rewrite (closed_anywhere l _ Hl), (closed_anywhere r _ Hr). reflexivity.
Qed.

Lemma lowered_expr_closed (node : expr) :
  forall t : plt.AST,
    indices_in_range node = true ->
    visit_expr node = OK t ->
    closed_under [] t = true.
Proof.
  induction node as [typ l op r IHl IHr | typ l ops cs IHl IHcs
                     | typ f args IHf IHargs | typ value | typ id ctx
                     | typ value slice IHvalue | typ kind]
    using expr_nested_ind; intros t Hrange Ht.
  - cbn [indices_in_range] in Hrange. apply andb_true_iff in Hrange.
    destruct Hrange as [Hrl Hrr]. cbn [visit_expr] in Ht.
    destruct (BinOpMap op) as [opmap | ]; [ | discriminate].
    destruct (opmap typ) as [b | ]; [ | discriminate].
    destruct (visit_expr l) as [cl | ]; [ | discriminate].
    destruct (visit_expr r) as [cr | ]; [ | discriminate].
    cbn [bind] in Ht. injection Ht as <-.
    apply operation_closed; [apply IHl | apply IHr]; auto.
  - cbn [indices_in_range] in Hrange. apply andb_true_iff in Hrange.
    destruct Hrange as [Hrl Hrcs]. cbn [visit_expr] in Ht.
    destruct ops as [ | op [ | ]]; try discriminate.
    destruct cs as [ | c [ | ]]; try discriminate.
    destruct (CmpMap op) as [opmap | ]; [ | discriminate].
    destruct (opmap (typ_of l)) as [b | ]; [ | discriminate].
    destruct (visit_expr l) as [cl | ]; [ | discriminate].
    destruct (visit_expr c) as [cr | ] eqn:Hc; [ | discriminate].
    cbn [bind] in Ht. injection Ht as <-.
    inversion IHcs as [ | ? ? IHc _]; subst.
    cbn [forallb] in Hrcs. apply andb_true_iff in Hrcs.
    apply operation_closed; [apply IHl | apply IHc]; tauto.
  - cbn [indices_in_range] in Hrange. apply andb_true_iff in Hrange.
    destruct Hrange as [Hrf Hrargs]. rewrite visit_Call_eq in Ht.
    destruct (visit_expr f) as [cf | ]; [ | discriminate].
    cbn [bind] in Ht.
    destruct (visit_args args) as [xs | ] eqn:Hxs; [ | discriminate].
    cbn [bind] in Ht. injection Ht as <-.
    cbn [closed_under app].
    rewrite (closed_anywhere cf _ (IHf cf Hrf eq_refl)).
    rewrite (visit_args_closed args IHargs Hrargs xs Hxs). reflexivity.
  - cbn [visit_expr] in Ht.
    destruct value; cbn [ConstantMap] in Ht; try discriminate;
      injection Ht as <-; reflexivity.
  - cbn [visit_expr] in Ht. destruct ctx; try discriminate.
    injection Ht as <-. reflexivity.
  - cbn [indices_in_range] in Hrange. apply andb_true_iff in Hrange.
    destruct Hrange as [Hrv Hrn]. cbn [visit_expr] in Ht.
    destruct slice as [index | ]; [ | discriminate].
    destruct (typ_of value) as [ | | | | | typs | | ]; try discriminate.
    destruct index as [ | | | ? n | | | ]; try discriminate.
    destruct (visit_expr value) as [cv | ]; [ | discriminate].
    cbn [bind] in Ht. injection Ht as <-.
    unfold emulate_nth_at. cbn [closed_under forallb].
    rewrite (IHvalue cv Hrv eq_refl).
    rewrite (proj2 (existsb_eqb_In _ _)); [reflexivity | ].
    apply in_or_app. left.
    apply tuple_param_named, index_names_position. exact Hrn.
  - discriminate.
Qed.

(** X25.  The term an expression lowers to is closed, provided every tuple
    subscript in it names a position of its tuple: lowering introduces no
    free variable.  The condition is needed: a tuple subscript with a
    constant index lowers whatever the constant is, and its term is closed
    exactly when the term of the subscripted value is and the text of the
    index is the decimal of a position, which [True] is not. *)
Theorem visit_expr_closed :
  (forall (node : expr) (t : plt.AST),
     indices_in_range node = true ->
     visit_expr node = OK t ->
     closed_under [] t = true) /\
  (forall (typ ctyp : type) (value : expr) (typs : list type) (n : constant)
          (cv : plt.AST),
     typ_of value = TupleType typs ->
     visit_expr value = OK cv ->
     visit_expr (Subscript typ value (Index (Constant ctyp n)))
     = OK (emulate_nth_at cv n (length typs)) /\
     closed_under [] (emulate_nth_at cv n (length typs))
     = closed_under [] cv
       && existsb (String.eqb (py_str n))
            (map str_of_nat (seq 0 (length typs)))) /\
  (indices_in_range t_at_True = false /\
   exists t : plt.AST,
     visit_expr t_at_True = OK t /\ closed_under [] t = false).
Proof.
  split; [ | split].
  - apply lowered_expr_closed.
  - intros typ ctyp value typs n cv Htyp Hcv. split.
    + cbn [visit_expr]. rewrite Htyp, Hcv. reflexivity.
    + unfold emulate_nth_at. cbn [closed_under forallb].
      rewrite app_nil_r, andb_true_r, tuple_param_bound. reflexivity.
  - split; [reflexivity | ].
    eexists. split; reflexivity.
Qed.

Lemma visit_expr_closed_witness :
  (indices_in_range
     (Subscript IntegerType (load (TupleType [IntegerType; BoolType]) "t")
        (Index (int_const 1))) = true /\
   visit_expr
     (Subscript IntegerType (load (TupleType [IntegerType; BoolType]) "t")
        (Index (int_const 1)))
   = OK (emulate_nth
           (plt.Lambda [STATEMONAD]
              (plt.Apply (plt.Var STATEMONAD) [plt.ByteString "t"]))
           1 2) /\
   closed_under []
     (emulate_nth
        (plt.Lambda [STATEMONAD]
           (plt.Apply (plt.Var STATEMONAD) [plt.ByteString "t"]))
        1 2) = true) /\
  (typ_of (load (TupleType [IntegerType; BoolType]) "t")
   = TupleType [IntegerType; BoolType] /\
   visit_expr (load (TupleType [IntegerType; BoolType]) "t")
   = OK (plt.Lambda [STATEMONAD]
           (plt.Apply (plt.Var STATEMONAD) [plt.ByteString "t"])) /\
   visit_expr
     (Subscript IntegerType (load (TupleType [IntegerType; BoolType]) "t")
        (Index (Constant StringType (CStr "1"))))
   = OK (emulate_nth_at
           (plt.Lambda [STATEMONAD]
              (plt.Apply (plt.Var STATEMONAD) [plt.ByteString "t"]))
           (CStr "1") (length [IntegerType; BoolType])) /\
   closed_under []
     (emulate_nth_at
        (plt.Lambda [STATEMONAD]
           (plt.Apply (plt.Var STATEMONAD) [plt.ByteString "t"]))
        (CStr "1") (length [IntegerType; BoolType]))
   = closed_under []
       (plt.Lambda [STATEMONAD]
          (plt.Apply (plt.Var STATEMONAD) [plt.ByteString "t"]))
     && existsb (String.eqb (py_str (CStr "1")))
          (map str_of_nat (seq 0 (length [IntegerType; BoolType])))).
Proof.
  split.
  - split; [reflexivity | ].
    split; [reflexivity | ].
    apply (proj1 visit_expr_closed
             (Subscript IntegerType
                (load (TupleType [IntegerType; BoolType]) "t")
                (Index (int_const 1))) _ eq_refl eq_refl).
  - split; [reflexivity | ].
    split; [reflexivity | ].
    apply (proj1 (proj2 visit_expr_closed) IntegerType StringType
             (load (TupleType [IntegerType; BoolType]) "t")
             [IntegerType; BoolType] (CStr "1") _ eq_refl eq_refl).
Defined.

Lemma stmt_nested_ind (P : stmt -> Prop) :
  (forall name args body, Forall P body -> P (FunctionDef name args body)) ->
  (forall targets value, P (Assign targets value)) ->
  (forall value, P (Expr value)) ->
  (forall value, P (Return value)) ->
  P Pass ->
  (forall test body orelse,
     Forall P body -> Forall P orelse -> P (While test body orelse)) ->
  (forall target iter body orelse, P (For target iter body orelse)) ->
  (forall kind, P (OtherStmt kind)) ->
  forall node, P node.
Proof.
  intros HFunctionDef HAssign HExpr HReturn HPass HWhile HFor HOther.
  fix IH 1. intros [name args body | targets value | value | value |
                    | test body orelse | target iter body orelse | kind].
  - apply HFunctionDef.
    induction body as [ | n body IHbody]; constructor;
      [apply IH | exact IHbody].
  - apply HAssign.
  - apply HExpr.
  - apply HReturn.
  - apply HPass.
  - apply HWhile.
    + induction body as [ | n body IHbody]; constructor;
        [apply IH | exact IHbody].
    + induction orelse as [ | n orelse IHorelse]; constructor;
        [apply IH | exact IHorelse].
  - apply HFor.
  - apply HOther.
Qed.

Lemma threaded_closed (node_seq : list stmt) :
  Forall
    (fun n =>
       forall t, stmt_indices_in_range n = true -> visit_stmt n = OK t ->
                 closed_under [] t = true) node_seq ->
  forallb stmt_indices_in_range node_seq = true ->
  forall s, threaded node_seq = OK s ->
  closed_under [STATEMONAD] s = true.
Proof.
  induction 1 as [ | n node_seq Hn _ IH]; intros Hrange s Hs;
    cbn [threaded] in Hs.
  - injection Hs as <-. reflexivity.
  - cbn [forallb] in Hrange. apply andb_true_iff in Hrange.
    destruct Hrange as [Hrn Hrest].
    destruct (threaded node_seq) as [inner | ]; [ | discriminate].
    cbn [bind] in Hs.
    destruct (visit_stmt n) as [c | ]; [ | discriminate].
    cbn [bind] in Hs. injection Hs as <-.
    cbn [closed_under forallb].
    rewrite (closed_anywhere c _ (Hn c Hrn eq_refl)).
    rewrite (IH Hrest inner eq_refl). reflexivity.
Qed.

Lemma removelast_incl {A : Type} (l : list A) : incl (removelast l) l.
Proof.
  induction l as [ | a [ | b l] IH]; intros x Hin.
  - contradiction.
  - contradiction.
  - destruct Hin as [-> | Hin]; [left; reflexivity | right; apply IH, Hin].
Qed.

Lemma removelast_with_return_incl (body : list stmt) :
  incl (removelast (with_return body)) body.
Proof.
  unfold with_return.
  destruct (is_Return (last body Pass)).
  - apply removelast_incl.
  - rewrite removelast_last. apply incl_refl.
Qed.

Lemma final_value_in_range (body : list stmt) :
  forallb stmt_indices_in_range body = true ->
  match final_value body with
  | Some value => indices_in_range value = true
  | None => True
  end.
Proof.
  intros Hrange. unfold final_value.
  destruct body as [ | n body]; [exact I | ].
  assert (Hin : In (last (n :: body) Pass) (n :: body)).
  { destruct (exists_last (l := n :: body)) as (init & m & Heq);
      [discriminate | ].
    rewrite Heq, last_last. apply in_or_app. right. left. reflexivity. }
  rewrite forallb_forall in Hrange. specialize (Hrange _ Hin).
  destruct (last (n :: body) Pass) as [ | | | [value | ] | | | | ];
    try exact I.
  exact Hrange.
Qed.

Lemma while_term_closed (compiled_c compiled_s : plt.AST) :
  closed_under [] compiled_c = true ->
  closed_under [] compiled_s = true ->
  closed_under [] (while_term compiled_c compiled_s) = true.
Proof.
  intros Hc Hs. unfold while_term. cbn [closed_under forallb app].
  rewrite (closed_anywhere compiled_c _ Hc), (closed_anywhere compiled_s _ Hs).
  reflexivity.
Qed.

Lemma lowered_stmt_closed (node : stmt) :
  forall t : plt.AST,
    stmt_indices_in_range node = true ->
    visit_stmt node = OK t ->
    closed_under [] t = true.
Proof.
  induction node as [name args body IHbody | targets value | value | value |
                     | test body orelse IHbody IHorelse
                     | target iter body orelse | kind]
    using stmt_nested_ind; intros t Hrange Ht.
  - destruct body as [ | n body]; [discriminate | ].
    rewrite visit_FunctionDef_eq, visit_sequence_threaded in Ht.
    cbn [stmt_indices_in_range] in Hrange.
    destruct (threaded (removelast (with_return (n :: body))))
      as [s | ] eqn:Hs; [ | discriminate].
    cbn [bind] in Ht.
    destruct (visit_optional (final_value (n :: body)))
      as [compiled_return | ] eqn:Hret; [ | discriminate].
    cbn [bind] in Ht. injection Ht as <-.
    assert (Hs_closed : closed_under [STATEMONAD] s = true).
    { apply (threaded_closed (removelast (with_return (n :: body)))).
      - apply Forall_forall. intros m Hm.
        rewrite Forall_forall in IHbody. apply IHbody.
        apply removelast_with_return_incl. exact Hm.
      - apply forallb_forall. intros m Hm.
        rewrite forallb_forall in Hrange. apply Hrange.
        apply removelast_with_return_incl. exact Hm.
      - exact Hs. }
    assert (Hret_closed : closed_under [] compiled_return = true).
    { assert (Hfinal := final_value_in_range (n :: body) Hrange).
      destruct (final_value (n :: body)) as [value | ];
        cbn [visit_optional] in Hret.
      - apply (lowered_expr_closed value); assumption.
      - injection Hret as <-. reflexivity. }
    cbn [closed_under forallb].
    rewrite (closed_anywhere compiled_return _ Hret_closed).
    rewrite (closed_under_incl s [STATEMONAD]) by
      (try exact Hs_closed; intros x [<- | []]; left; reflexivity).
    rewrite extend_statemonad_closed; [reflexivity | | ].
    + apply existsb_eqb_In. right. apply in_or_app. right. apply in_or_app.
      left. left. reflexivity.
    + apply Forall_forall. intros v Hv. apply in_map_iff in Hv.
      destruct Hv as (p & <- & Hp). apply existsb_eqb_In.
      right. apply in_or_app. left. exact Hp.
  - cbn [stmt_indices_in_range] in Hrange.
    cbn [visit_stmt] in Ht.
    destruct targets as [ | target [ | ]]; try discriminate.
    destruct target; try discriminate.
    destruct (visit_expr value) as [c | ] eqn:Hc; [ | discriminate].
    cbn [bind] in Ht. injection Ht as <-.
    cbn [closed_under app].
    apply extend_statemonad_closed; [reflexivity | ].
    constructor; [ | constructor].
    cbn [closed_under forallb].
    rewrite (closed_anywhere c _ (lowered_expr_closed value c Hrange Hc)).
    reflexivity.
  - cbn [stmt_indices_in_range visit_stmt] in Hrange, Ht.
    destruct (visit_expr value) as [c | ] eqn:Hc; [ | discriminate].
    cbn [bind] in Ht. injection Ht as <-.
    cbn [closed_under forallb app].
    rewrite (closed_anywhere c _ (lowered_expr_closed value c Hrange Hc)).
    reflexivity.
  - discriminate.
  - injection Ht as <-. reflexivity.
  - cbn [stmt_indices_in_range] in Hrange.
    apply andb_true_iff in Hrange. destruct Hrange as [Hrange Hrorelse].
    apply andb_true_iff in Hrange. destruct Hrange as [Hrtest Hrbody].
    change (visit_stmt (While test body orelse)) with
      (compiled_c <- visit_expr test ;;
       s <- threaded body ;;
       match orelse with
       | [] => OK (while_term compiled_c (plt.Lambda [STATEMONAD] s))
       | _ =>
           after <- threaded orelse ;;
           OK (plt.Lambda [STATEMONAD]
                 (plt.Apply
                    (while_term compiled_c (plt.Lambda [STATEMONAD] s))
                    [after]))
       end) in Ht.
    destruct (visit_expr test) as [compiled_c | ] eqn:Hc; [ | discriminate].
    cbn [bind] in Ht.
    destruct (threaded body) as [s | ] eqn:Hs; [ | discriminate].
    cbn [bind] in Ht.
    assert (Hloop : closed_under []
                      (while_term compiled_c (plt.Lambda [STATEMONAD] s))
                    = true).
    { apply while_term_closed.
      - apply (lowered_expr_closed test); assumption.
      - cbn [closed_under app].
        apply (threaded_closed body IHbody Hrbody s Hs). }
    destruct orelse as [ | o orelse].
    + injection Ht as <-. exact Hloop.
    + destruct (threaded (o :: orelse)) as [after | ] eqn:Hafter;
        [ | discriminate].
      cbn [bind] in Ht. injection Ht as <-.
      cbn [closed_under forallb app].
      rewrite (closed_anywhere _ _ Hloop).
      rewrite (threaded_closed (o :: orelse) IHorelse Hrorelse after Hafter).
      reflexivity.
  - cbn [visit_stmt] in Ht. destruct (typ_of iter); discriminate.
  - discriminate.
Qed.

(** X26.  The term a statement lowers to is closed, provided every tuple
    subscript in it names a position of its tuple; this covers function
    definitions, whose parameters [p0], [p1], ... are bound by the lambda
    the definition emits, and loops.  The condition is needed: the
    expression statement [t[True]] lowers to a term with a free variable. *)
Theorem visit_stmt_closed :
  (forall (node : stmt) (t : plt.AST),
     stmt_indices_in_range node = true ->
     visit_stmt node = OK t ->
     closed_under [] t = true) /\
  (stmt_indices_in_range (Expr t_at_True) = false /\
   exists t : plt.AST,
     visit_stmt (Expr t_at_True) = OK t /\ closed_under [] t = false).
Proof.
  split.
  - apply lowered_stmt_closed.
  - split; [reflexivity | ].
    eexists. split; reflexivity.
Qed.

Lemma visit_stmt_closed_witness :
  stmt_indices_in_range count_to_3 = true /\
  (exists t : plt.AST,
     visit_stmt count_to_3 = OK t /\ closed_under [] t = true).
Proof.
  split; [reflexivity | ].
  eexists. split; [reflexivity | ].
  apply (proj1 visit_stmt_closed count_to_3 _ eq_refl eq_refl).
Defined.

(** X27.  A module that lowers gives a closed program: the lowered body
    applied to the bootstrap environment has no free variable, provided
    every tuple subscript in it names a position of its tuple.  The
    condition is needed: the module of the one statement [t[True]] lowers to
    a program with a free variable. *)
Theorem visit_Module_closed :
  (forall (body : list stmt) (t : plt.AST),
     forallb stmt_indices_in_range body = true ->
     visit_Module (Module_ body) = OK t ->
     closed_under [] t = true) /\
  (forallb stmt_indices_in_range [Expr t_at_True] = false /\
   exists t : plt.AST,
     visit_Module (Module_ [Expr t_at_True]) = OK t /\
     closed_under [] t = false).
Proof.
  split.
  - intros body t Hrange Ht. cbn [visit_Module] in Ht.
    rewrite visit_sequence_threaded in Ht.
    destruct (threaded body) as [s | ] eqn:Hs; [ | discriminate].
    cbn [bind] in Ht. injection Ht as <-.
    assert (Hclosed : closed_under [STATEMONAD] s = true).
    { apply (threaded_closed body); [ | exact Hrange | exact Hs].
      apply Forall_forall. intros n _. apply lowered_stmt_closed. }
    cbn [closed_under forallb app]. rewrite Hclosed. reflexivity.
  - split; [reflexivity | ].
    eexists. split; reflexivity.
Qed.

Lemma visit_Module_closed_witness :
  forallb stmt_indices_in_range copy_x_to_y = true /\
  (exists t : plt.AST,
     visit_Module (Module_ copy_x_to_y) = OK t /\ closed_under [] t = true).
Proof.
  split; [reflexivity | ].
  eexists. split; [reflexivity | ].
  apply (proj1 visit_Module_closed copy_x_to_y _ eq_refl eq_refl).
Defined.

Lemma visit_Assign_lowers_iff_witness :
  visit_stmt (Assign [Name IntegerType "n" Store] (int_const 7)) =
  OK (plt.Lambda [STATEMONAD]
        (extend_statemonad ["n"]
           [plt.Apply (plt.Lambda [STATEMONAD] (plt.Integer 7))
              [plt.Var STATEMONAD]]
           (plt.Var STATEMONAD))).
Proof.
  apply (proj2 (visit_Assign_lowers_iff [Name IntegerType "n" Store]
                  (int_const 7) _)).
  exists IntegerType, "n", Store, (plt.Lambda [STATEMONAD] (plt.Integer 7)).
  split; [reflexivity | ]. split; reflexivity.
Defined.
